(** * The LogSumExp graph fixer and the single-site proposer cache

    A shallow embedding of
    - [beanmachine/ppl/compiler/fix_logsumexp.py] (class [LogSumExpFixer]), and
    - [beanmachine/ppl/experimental/global_inference/single_site_inference.py]
      (class [SingleSiteInference]).

    Python objects are addressed by reference: graph nodes live in a store
    indexed by node references, and the methods of the fixer run in a small
    state-and-exception monad over the fixer object. *)

From stdpp Require Import gmap list fin_maps sorting.
From Stdlib Require Import ZArith.

(** ** Graph nodes ([bmg_nodes], imported as [bn]) *)

(** A node is referred to by its identity. *)
Definition node_ref := nat.

Module bn.

(** Modelled from the spec: the node classes of [bmg_nodes] are not part of
    the sources at hand.  The spec gives every node a kind tag out of a
    closed variant ("Log, Exp, MultiAdd, LogSumExp, Constant, ..."), and
    an ordered sequence of input references.  [AdditionNode] is the binary
    addition of the chain form; a constant carries its numeric value;
    [OtherNode] stands for the rest of the catalogue. *)
Inductive Kind :=
| LogNode
| ExpNode
| MultiAdditionNode
| LogSumExpNode
| AdditionNode
| ConstantNode (value : Z)
| OtherNode (tag : nat).

Record BMGNode := { kind : Kind; inputs : list node_ref }.

(** The kind with the payload of a constant erased. *)
Inductive Tag :=
| TLog | TExp | TMultiAdd | TLogSumExp | TAdd | TConstant | TOther (tag : nat).

Definition tag_of (k : Kind) : Tag :=
  match k with
  | LogNode => TLog
  | ExpNode => TExp
  | MultiAdditionNode => TMultiAdd
  | LogSumExpNode => TLogSumExp
  | AdditionNode => TAdd
  | ConstantNode _ => TConstant
  | OtherNode t => TOther t
  end.

(** The classes [isinstance] is asked about in the fixer. *)
Definition is_LogNode (k : Kind) : bool :=
  match k with LogNode => true | _ => false end.
Definition is_ExpNode (k : Kind) : bool :=
  match k with ExpNode => true | _ => false end.
Definition is_MultiAdditionNode (k : Kind) : bool :=
  match k with MultiAdditionNode => true | _ => false end.

(** Log and Exp are unary operators: exactly one operand. *)
Definition unary (k : Kind) : bool := is_LogNode k || is_ExpNode k.

End bn.

Global Instance Kind_eq_dec : EqDecision bn.Kind.
Proof. solve_decision. Defined.
Global Instance Tag_eq_dec : EqDecision bn.Tag.
Proof. solve_decision. Defined.
Global Instance BMGNode_eq_dec : EqDecision bn.BMGNode.
Proof. solve_decision. Defined.

(** ** The graph builder *)

(** Modelled from the spec: [BMGraphBuilder] is not part of the sources at
    hand.  It owns the nodes, which are shared by reference among all their
    consumers. *)
Record BMGraphBuilder := { nodes : gmap node_ref bn.BMGNode }.

Definition kind_of (g : gmap node_ref bn.BMGNode) (n : node_ref) : option bn.Kind :=
  bn.kind <$> g !! n.

Definition inputs_of (g : gmap node_ref bn.BMGNode) (n : node_ref) : option (list node_ref) :=
  bn.inputs <$> g !! n.

(** [n.operand] of a unary operator node is [n.inputs[0]]. *)
Definition operand_of (g : gmap node_ref bn.BMGNode) (n : node_ref) : option node_ref :=
  nd ← g !! n; bn.inputs nd !! 0.

(** Modelled from the spec: "a node's consumer set is always the exact
    inverse of the input relation across the whole graph". *)
Definition consumers_of (g : gmap node_ref bn.BMGNode) (a : node_ref) : gset node_ref :=
  dom (filter (λ p, a ∈ bn.inputs p.2) g).

(** Every reference held by a node points into the store, and the unary
    operators have their single operand. *)
Definition wf_node (g : gmap node_ref bn.BMGNode) (nd : bn.BMGNode) : Prop :=
  Forall (λ i, is_Some (g !! i)) (bn.inputs nd)
  ∧ (bn.unary (bn.kind nd) = true → length (bn.inputs nd) = 1).

Definition wf_graph (g : gmap node_ref bn.BMGNode) : Prop :=
  map_Forall (λ _ nd, wf_node g nd) g.

Global Instance wf_node_dec g nd : Decision (wf_node g nd).
Proof. unfold wf_node. apply _. Defined.
Global Instance wf_graph_dec g : Decision (wf_graph g).
Proof. unfold wf_graph. apply _. Defined.

(** Modelled from the spec: [Graph.replace(old, new)] "rewires every consumer
    of A to reference B instead"; on one consumer this substitutes the
    reference in its input list, position by position. *)
Definition rewire (old new : node_ref) (nd : bn.BMGNode) : bn.BMGNode :=
  {| bn.kind := bn.kind nd;
     bn.inputs := (λ i, if decide (i = old) then new else i) <$> bn.inputs nd |}.

(** ** The fixer object and its monad *)

Inductive Exception :=
| AssertionError
| IndexError
| KeyError
| InvalidRef
| FixerContractViolation
| UnboundedRewriting.

Inductive outcome (A : Type) :=
| Ok (a : A)
| Raise (e : Exception).
Arguments Ok {A} a.
Arguments Raise {A} e.

Section Fixer.

(** The type lattice oracle is opaque here: the fixer only stores it. *)
Context {LatticeTyper : Type}.

(** [ProblemFixerBase.__init__(self, bmg, typer)] keeps both collaborators. *)
Record LogSumExpFixer := { _bmg : BMGraphBuilder; _typer : LatticeTyper }.

(** A method of the fixer: from the object before the call to the outcome
    and the object after it. *)
Definition M (A : Type) : Type := LogSumExpFixer → outcome A * LogSumExpFixer.

Definition ret {A} (a : A) : M A := λ s, (Ok a, s).

Definition bind {A B} (m : M A) (k : A → M B) : M B :=
  λ s, match m s with
       | (Ok a, s') => k a s'
       | (Raise e, s') => (Raise e, s')
       end.

Definition raise {A} (e : Exception) : M A := λ s, (Raise e, s).

(** [assert b] *)
Definition assert (b : bool) : M unit :=
  if b then ret () else raise AssertionError.

End Fixer.

Arguments LogSumExpFixer : clear implicits.
Arguments M : clear implicits.

Declare Scope fixer_scope.
Delimit Scope fixer_scope with fixer.
Notation "x <- c1 ;; c2" := (bind c1 (λ x, c2))
  (at level 100, c1 at next level, right associativity) : fixer_scope.
Notation "c1 ;;; c2" := (bind c1 (λ _, c2))
  (at level 100, right associativity) : fixer_scope.

Section FixerMethods.

Context {LatticeTyper : Type}.
Local Open Scope fixer_scope.
Local Abbreviation M := (M LatticeTyper).

(** Reading a node through its reference.  A reference outside the store
    has no Python counterpart; the model stops with [InvalidRef]. *)
Definition deref (n : node_ref) : M bn.BMGNode :=
  λ s, match nodes (_bmg s) !! n with
       | Some nd => (Ok nd, s)
       | None => (Raise InvalidRef, s)
       end.

(** [isinstance(n, cls)] *)
Definition isinstance (n : node_ref) (cls : bn.Kind → bool) : M bool :=
  nd <- deref n ;; ret (cls (bn.kind nd)).

(** [n.inputs] *)
Definition inputs (n : node_ref) : M (list node_ref) :=
  nd <- deref n ;; ret (bn.inputs nd).

(** [n.operand], that is [n.inputs[0]] *)
Definition operand (n : node_ref) : M node_ref :=
  nd <- deref n ;;
  match bn.inputs nd !! 0 with
  | Some o => ret o
  | None => raise IndexError
  end.

(** Python's [all(p(i) for i in l)]: stops at the first false. *)
Fixpoint all {A} (p : A → M bool) (l : list A) : M bool :=
  match l with
  | [] => ret true
  | i :: l' => b <- p i ;; if b then all p l' else ret false
  end.

(** Modelled from the spec: [BMGraphBuilder.add_logsumexp] is not part of
    the sources at hand.  The graph builder's [add_node(kind, inputs...)]
    "constructs and interns a new node" and returns its reference. *)
Definition add_logsumexp (acc : list node_ref) : M node_ref :=
  λ s, let g := nodes (_bmg s) in
       let r := fresh (dom g) in
       (Ok r,
        {| _bmg := {| nodes := <[r := {| bn.kind := bn.LogSumExpNode;
                                         bn.inputs := acc |}]> g |};
           _typer := _typer s |}).

Definition _is_exp_input (n : node_ref) : M bool :=
  l <- inputs n ;; all (λ i, isinstance i bn.is_ExpNode) l.

Definition can_be_log_sum_exp (n : node_ref) : M bool :=
  o <- operand n ;;
  b <- isinstance o bn.is_MultiAdditionNode ;;
  if b then _is_exp_input o else ret false.

Definition _needs_fixing (n : node_ref) : M bool :=
  b <- isinstance n bn.is_LogNode ;;
  if b then can_be_log_sum_exp n else ret false.

(** The body of [for c in n.operand.inputs], threading [acc]. *)
Fixpoint collect_operands (l : list node_ref) (acc : list node_ref)
  : M (list node_ref) :=
  match l with
  | [] => ret acc
  | c :: l' =>
      b <- isinstance c bn.is_ExpNode ;;
      assert b ;;;
      a <- operand c ;;
      collect_operands l' (acc ++ [a])
  end.

(** The declared result is [Optional[bn.BMGNode]]. *)
Definition _get_replacement (n : node_ref) : M (option node_ref) :=
  b <- isinstance n bn.is_LogNode ;;
  assert b ;;;
  b <- can_be_log_sum_exp n ;;
  assert b ;;;
  o <- operand n ;;
  l <- inputs o ;;
  acc <- collect_operands l [] ;;
  o' <- operand n ;;
  l' <- inputs o' ;;
  assert (bool_decide (length acc = length l')) ;;;
  r <- add_logsumexp acc ;;
  ret (Some r).

End FixerMethods.

(** ** The rewrite engine *)

Section Engine.

Context {LatticeTyper : Type}.
Local Open Scope fixer_scope.
Local Abbreviation M := (M LatticeTyper).

(** Modelled from the spec: the graph's mutation surface is not part of the
    sources at hand.  [topological_order] lists the nodes of the graph in
    the order of traversal; [replace old new] "rewires all consumers, drops
    [old] if unreachable".  Both are left open. *)
Variable topological_order : gmap node_ref bn.BMGNode → list node_ref.
Variable replace :
  node_ref → node_ref → gmap node_ref bn.BMGNode → gmap node_ref bn.BMGNode.

Definition graph_replace (old new : node_ref) : M unit :=
  λ s, (Ok (),
        {| _bmg := {| nodes := replace old new (nodes (_bmg s)) |};
           _typer := _typer s |}).

(** Modelled from the spec: [ProblemFixerBase] is not part of the sources at
    hand.  "For each visited node [n], evaluates the fixer's
    [needs_fixing(n)] predicate.  If true, calls [get_replacement(n)]"; no
    replacement is fatal; "if a replacement is returned and differs in
    identity from [n], the engine performs [graph.replace(n, replacement)]".
    The result counts the replacements made: none or one. *)
Definition visit (n : node_ref) : M nat :=
  b <- _needs_fixing n ;;
  if b then
    x <- _get_replacement n ;;
    match x with
    | None => raise FixerContractViolation
    | Some r =>
        if decide (r = n) then ret 0
        else (graph_replace n r ;;; ret 1)
    end
  else ret 0.

Fixpoint traverse (l : list node_ref) (count : nat) : M nat :=
  match l with
  | [] => ret count
  | n :: l' => k <- visit n ;; traverse l' (count + k)
  end.

(** One full traversal pass over the current node set. *)
Definition pass : M nat :=
  λ s, traverse (topological_order (nodes (_bmg s))) 0 s.

(** Modelled from the spec: "the engine therefore repeats a full traversal
    pass until a pass produces zero replacements"; [fuel] is the defensive
    bound on the number of passes.  The report is the number of
    replacements of the run. *)
Fixpoint run (fuel : nat) (total : nat) : M nat :=
  match fuel with
  | 0 => raise UnboundedRewriting
  | S fuel' =>
      k <- pass ;;
      if decide (k = 0) then ret total else run fuel' (total + k)
  end.

End Engine.

(** ** The pattern *)

(** The shape the fixer looks for at [n]: a Log node whose operand [o] is a
    MultiAdd node over the inputs [l], each of them an Exp node. *)
Definition log_of_sum_of_exps (g : gmap node_ref bn.BMGNode)
    (n o : node_ref) (l : list node_ref) : Prop :=
  kind_of g n = Some bn.LogNode
  ∧ operand_of g n = Some o
  ∧ g !! o = Some {| bn.kind := bn.MultiAdditionNode; bn.inputs := l |}
  ∧ Forall (λ c, kind_of g c = Some bn.ExpNode) l.

(** [ops] lists, in order, the operands of the Exp nodes [l]. *)
Definition exp_operands (g : gmap node_ref bn.BMGNode)
    (l ops : list node_ref) : Prop :=
  Forall2 (λ c a, kind_of g c = Some bn.ExpNode ∧ operand_of g c = Some a) l ops.

(** The fixer object after the graph builder has added the node [nd] under
    the reference [r]. *)
Definition with_node {LatticeTyper : Type} (s : LogSumExpFixer LatticeTyper)
    (r : node_ref) (nd : bn.BMGNode) : LogSumExpFixer LatticeTyper :=
  {| _bmg := {| nodes := <[r := nd]> (nodes (_bmg s)) |}; _typer := _typer s |}.

(** A left-associated chain of binary additions over Exp nodes, rooted at
    [o]: [Add(e1, e2)], or [Add(p, e)] over such a chain [p].  [ms] lists the
    nodes of the chain, the additions and the Exp nodes. *)
Inductive add_chain (g : gmap node_ref bn.BMGNode)
  : node_ref → list node_ref → Prop :=
| add_chain_two o e1 e2 :
    g !! o = Some {| bn.kind := bn.AdditionNode; bn.inputs := [e1; e2] |} →
    kind_of g e1 = Some bn.ExpNode →
    kind_of g e2 = Some bn.ExpNode →
    add_chain g o [o; e1; e2]
| add_chain_more o p e ms :
    g !! o = Some {| bn.kind := bn.AdditionNode; bn.inputs := [p; e] |} →
    add_chain g p ms →
    kind_of g e = Some bn.ExpNode →
    add_chain g o (o :: e :: ms).

(** ** Graphs of the same structure *)

(** [R] pairs the references of one graph with those of another.  Two nodes
    have the same structure along [R] when their kinds agree, up to the value
    a constant carries, and their inputs correspond position by position. *)
Definition same_node (R : list (node_ref * node_ref)) (nd1 nd2 : bn.BMGNode) : Prop :=
  bn.tag_of (bn.kind nd1) = bn.tag_of (bn.kind nd2)
  ∧ Forall2 (λ i1 i2, (i1, i2) ∈ R) (bn.inputs nd1) (bn.inputs nd2).

Definition same_at (R : list (node_ref * node_ref))
    (g1 g2 : gmap node_ref bn.BMGNode) (p : node_ref * node_ref) : Prop :=
  match g1 !! p.1, g2 !! p.2 with
  | Some nd1, Some nd2 => same_node R nd1 nd2
  | _, _ => False
  end.

Definition same_structure (R : list (node_ref * node_ref))
    (g1 g2 : gmap node_ref bn.BMGNode) : Prop :=
  Forall (same_at R g1 g2) R.

Global Instance same_node_dec R nd1 nd2 : Decision (same_node R nd1 nd2).
Proof. unfold same_node. apply _. Defined.
Global Instance same_at_dec R g1 g2 p : Decision (same_at R g1 g2 p).
Proof.
  unfold same_at. destruct (g1 !! p.1); [|apply _].
  destruct (g2 !! p.2); apply _.
Defined.
Global Instance same_structure_dec R g1 g2 : Decision (same_structure R g1 g2).
Proof. unfold same_structure. apply _. Defined.

(** Two outcomes agree: the same exception, or results related by [P]. *)
Definition same_outcome {A B} (P : A → B → Prop)
    (o1 : outcome A) (o2 : outcome B) : Prop :=
  match o1, o2 with
  | Ok a, Ok b => P a b
  | Raise e1, Raise e2 => e1 = e2
  | _, _ => False
  end.

(** Two methods that only read: run on graphs of the same structure they
    leave both fixers as they were and their outcomes agree. *)
Definition reads {T1 T2 : Type} (R : list (node_ref * node_ref)) {A B}
    (P : A → B → Prop) (m1 : M T1 A) (m2 : M T2 B) : Prop :=
  ∀ s1 s2, same_structure R (nodes (_bmg s1)) (nodes (_bmg s2)) →
    (m1 s1).2 = s1 ∧ (m2 s2).2 = s2 ∧ same_outcome P (m1 s1).1 (m2 s2).1.

(** A class test that does not look at the value a constant carries. *)
Definition structural (cls : bn.Kind → bool) : Prop :=
  ∀ k1 k2, bn.tag_of k1 = bn.tag_of k2 → cls k1 = cls k2.

(** ** Sample graphs *)

Definition mk (k : bn.Kind) (l : list node_ref) : bn.BMGNode :=
  {| bn.kind := k; bn.inputs := l |}.

(** [log(exp(a) + exp(b) + exp(c))] with the sum as one MultiAdd node:
    0, 1, 2 are [a], [b], [c]; 3, 4, 5 their exponentials; 6 the sum;
    7 the logarithm. *)
Definition flat_graph : gmap node_ref bn.BMGNode :=
  list_to_map
    [ (0, mk (bn.OtherNode 0) []); (1, mk (bn.OtherNode 1) []);
      (2, mk (bn.OtherNode 2) []);
      (3, mk bn.ExpNode [0]); (4, mk bn.ExpNode [1]); (5, mk bn.ExpNode [2]);
      (6, mk bn.MultiAdditionNode [3; 4; 5]);
      (7, mk bn.LogNode [6]) ].

(** The chain form [log((exp(a) + exp(b)) + exp(c))]: 6 is the inner binary
    addition, 7 the outer one, 8 the logarithm. *)
Definition chain_graph : gmap node_ref bn.BMGNode :=
  list_to_map
    [ (0, mk (bn.OtherNode 0) []); (1, mk (bn.OtherNode 1) []);
      (2, mk (bn.OtherNode 2) []);
      (3, mk bn.ExpNode [0]); (4, mk bn.ExpNode [1]); (5, mk bn.ExpNode [2]);
      (6, mk bn.AdditionNode [3; 4]);
      (7, mk bn.AdditionNode [6; 5]);
      (8, mk bn.LogNode [7]) ].

(** The shortest chain form [log(exp(a) + exp(b))]: 4 is the binary
    addition, 5 the logarithm. *)
Definition pair_chain_graph : gmap node_ref bn.BMGNode :=
  list_to_map
    [ (0, mk (bn.OtherNode 0) []); (1, mk (bn.OtherNode 1) []);
      (2, mk bn.ExpNode [0]); (3, mk bn.ExpNode [1]);
      (4, mk bn.AdditionNode [2; 3]);
      (5, mk bn.LogNode [4]) ].

(** [log(exp(a) + 5)]: 0 is [a], 1 its exponential, 2 the constant, 3 the
    sum over [[Exp(a), Constant(5)]], 4 the logarithm. *)
Definition mixed_graph : gmap node_ref bn.BMGNode :=
  list_to_map
    [ (0, mk (bn.OtherNode 0) []);
      (1, mk bn.ExpNode [0]);
      (2, mk (bn.ConstantNode 5) []);
      (3, mk bn.MultiAdditionNode [1; 2]);
      (4, mk bn.LogNode [3]) ].

(** The logarithm (1) of a sum (0) without inputs. *)
Definition empty_sum_graph : gmap node_ref bn.BMGNode :=
  list_to_map
    [ (0, mk bn.MultiAdditionNode []);
      (1, mk bn.LogNode [0]) ].

(** [flat_graph] with one more consumer (8) of [Exp(a)] (3), outside the
    pattern. *)
Definition shared_graph : gmap node_ref bn.BMGNode :=
  <[8 := mk (bn.OtherNode 7) [3]]> flat_graph.

(** [flat_graph] with an Exp node (8) over the sum (6):
    [exp(exp(a) + exp(b) + exp(c))]. *)
Definition wrapped_sum_graph : gmap node_ref bn.BMGNode :=
  <[8 := mk bn.ExpNode [6]]> flat_graph.

(** [log(exp(v) + exp(w))] over two constants, at the references [k],
    ..., [k + 5]. *)
Definition const_sum_graph (k : nat) (v w : Z) : gmap node_ref bn.BMGNode :=
  list_to_map
    [ (k, mk (bn.ConstantNode v) []); (k + 1, mk (bn.ConstantNode w) []);
      (k + 2, mk bn.ExpNode [k]); (k + 3, mk bn.ExpNode [k + 1]);
      (k + 4, mk bn.MultiAdditionNode [k + 2; k + 3]);
      (k + 5, mk bn.LogNode [k + 4]) ].

Definition shifted (k : nat) : list (node_ref * node_ref) :=
  (λ i, (i, k + i)) <$> seq 0 6.

(** For the sample runs of the engine: the nodes by ascending reference, and
    a replacement that rewires every node and drops the replaced one. *)
Definition ascending_order (g : gmap node_ref bn.BMGNode) : list node_ref :=
  merge_sort (≤) (elements (dom g)).

Definition rewire_and_drop (old new : node_ref)
    (g : gmap node_ref bn.BMGNode) : gmap node_ref bn.BMGNode :=
  delete old (rewire old new <$> g).

Definition fixer_on (g : gmap node_ref bn.BMGNode) : LogSumExpFixer unit :=
  {| _bmg := {| nodes := g |}; _typer := () |}.

(** ** Single-site inference *)

Section SingleSite.

(** Random variable identifiers are hashable and compared by value; the
    world and the keyword arguments are passed along untouched. *)
Context `{Countable RVIdentifier} {SimpleWorld Kwargs : Type}.

(** A proposer object is referred to by its identity. *)
Definition proposer_ref := nat.

(** An instance of the proposer class, as its constructor was called:
    [self.proposer_class(node, **self.inference_args)]. *)
Record BaseSingleSiteMHProposer := { node : RVIdentifier; kwargs : Kwargs }.

(** [__init__] keeps the keyword arguments and starts with the empty
    dictionary [_proposers]. *)
Record SingleSiteInference := {
  inference_args : Kwargs;
  _proposers : gmap RVIdentifier proposer_ref
}.

(** The inference object, and the proposer objects constructed so far in the
    order of their construction; a proposer is referred to by its position
    there. *)
Record State := {
  self : SingleSiteInference;
  created : list BaseSingleSiteMHProposer
}.

Definition __init__ (kwargs : Kwargs) : State :=
  {| self := {| inference_args := kwargs; _proposers := ∅ |}; created := [] |}.

(** [self.proposer_class] is the class the inference object was built
    with; calling it constructs a new object. *)
Definition proposer_class (node : RVIdentifier) (kwargs : Kwargs) (st : State)
  : proposer_ref * State :=
  (length (created st),
   {| self := self st;
      created := created st ++ [{| node := node; kwargs := kwargs |}] |}).

(** [self._proposers[node] = p] *)
Definition set_proposer (node : RVIdentifier) (p : proposer_ref) (st : State) : State :=
  {| self := {| inference_args := inference_args (self st);
                _proposers := <[node := p]> (_proposers (self st)) |};
     created := created st |}.

(** The loop [for node in target_rvs], in the order in which the set is
    visited, threading the list [proposers]. *)
Fixpoint for_node_in (target_rvs : list RVIdentifier)
    (proposers : list proposer_ref) (st : State)
  : outcome (list proposer_ref) * State :=
  match target_rvs with
  | [] => (Ok proposers, st)
  | node :: rest =>
      let st1 :=
        match _proposers (self st) !! node with
        | None =>
            let '(p, st') := proposer_class node (inference_args (self st)) st in
            set_proposer node p st'
        | Some _ => st
        end in
      match _proposers (self st1) !! node with
      | Some p => for_node_in rest (proposers ++ [p]) st1
      | None => (Raise KeyError, st1)
      end
  end.

Definition get_proposers (world : SimpleWorld) (target_rvs : list RVIdentifier)
    (num_adaptive_sample : Z) (st : State)
  : outcome (list proposer_ref) * State :=
  for_node_in target_rvs [] st.

(** One call of [get_proposers] that returns takes [st] to [st']. *)
Definition call (st st' : State) : Prop :=
  ∃ world target_rvs num_adaptive_sample proposers,
    get_proposers world target_rvs num_adaptive_sample st = (Ok proposers, st').

(** Every entry of the dictionary is an object constructed for its key, and
    every constructed object is the entry of the variable it was constructed
    for. *)
Definition memo_inv (st : State) : Prop :=
  (∀ rv p, _proposers (self st) !! rv = Some p →
     ∃ obj, created st !! p = Some obj ∧ node obj = rv)
  ∧ (∀ (p : proposer_ref) obj, created st !! p = Some obj →
       _proposers (self st) !! node obj = Some p).

End SingleSite.

Arguments BaseSingleSiteMHProposer : clear implicits.
Arguments SingleSiteInference _ {_ _} _.
Arguments State _ {_ _} _.

(** ** Joint single-site inference *)

Module JointSingleSiteInference.

Section Joint.

Context `{Countable RVIdentifier} {SimpleWorld Kwargs Random : Type}.

(** [random.shuffle(x)] rearranges the list it is given and advances the
    generator of the [random] module. *)
Variable shuffle : Random → list proposer_ref → list proposer_ref * Random.

(** A [SequentialProposer(proposers)] object: the list it was built from. *)
Record SequentialProposer := { proposers : list proposer_ref }.

(** The inference object of the parent class with the proposers constructed
    for it, the generator, and the sequential proposers constructed so far,
    each referred to by its position. *)
Record JointState := {
  single_site : State RVIdentifier Kwargs;
  random : Random;
  sequential : list SequentialProposer
}.

Definition get_proposers (world : SimpleWorld) (target_rvs : list RVIdentifier)
    (num_adaptive_sample : Z) (st : JointState)
  : outcome (list nat) * JointState :=
  match get_proposers world target_rvs num_adaptive_sample (single_site st) with
  | (Ok proposers, ss) =>
      let '(shuffled, rng) := shuffle (random st) proposers in
      (Ok [length (sequential st)],
       {| single_site := ss; random := rng;
          sequential := sequential st ++ [{| proposers := shuffled |}] |})
  | (Raise e, ss) =>
      (Raise e,
       {| single_site := ss; random := random st;
          sequential := sequential st |})
  end.

End Joint.

End JointSingleSiteInference.

(** For the sample calls: a shuffle that reverses the list. *)
Definition reversing (rng : unit) (l : list proposer_ref)
  : list proposer_ref * unit := (reverse l, rng).

(** ** Running the methods *)

Section Runs.

Context {LatticeTyper : Type}.
Implicit Types (s : LogSumExpFixer LatticeTyper) (n o c r : node_ref).
Implicit Types (g : gmap node_ref bn.BMGNode) (l acc : list node_ref).

Local Abbreviation graph s := (nodes (_bmg s)).

Lemma isinstance_run n cls s :
  isinstance n cls s =
    (match kind_of (graph s) n with
     | Some k => Ok (cls k)
     | None => Raise InvalidRef
     end, s).
Proof.
  unfold isinstance, bind, deref, ret, kind_of.
  by destruct (graph s !! n).
Qed.

Lemma inputs_run n s :
  inputs n s =
    (match inputs_of (graph s) n with
     | Some l => Ok l
     | None => Raise InvalidRef
     end, s).
Proof.
  unfold inputs, bind, deref, ret, inputs_of.
  by destruct (graph s !! n).
Qed.

Lemma operand_run n s :
  operand n s =
    (match graph s !! n with
     | Some nd => match bn.inputs nd !! 0 with
                  | Some o => Ok o
                  | None => Raise IndexError
                  end
     | None => Raise InvalidRef
     end, s).
Proof.
  unfold operand, bind, deref, ret, raise.
  destruct (graph s !! n) as [nd|]; [|done].
  by destruct (bn.inputs nd !! 0).
Qed.

Lemma bind_run {A B} (m : M LatticeTyper A) (k : A → M LatticeTyper B) s :
  bind m k s =
    match m s with
    | (Ok a, s') => k a s'
    | (Raise e, s') => (Raise e, s')
    end.
Proof. reflexivity. Qed.

(** *** [all] over [isinstance] *)

Lemma all_isinstance_state cls l s :
  (all (λ i, isinstance i cls) l s).2 = s.
Proof.
  induction l as [|i l IH]; [done|].
  simpl. rewrite bind_run, isinstance_run.
  destruct (kind_of (graph s) i) as [k|]; [|done].
  by destruct (cls k).
Qed.

Lemma all_isinstance_true cls l s :
  (all (λ i, isinstance i cls) l s).1 = Ok true
  ↔ Forall (λ i, ∃ k, kind_of (graph s) i = Some k ∧ cls k = true) l.
Proof.
  induction l as [|i l IH]; simpl.
  { split; [constructor | done]. }
  rewrite bind_run, isinstance_run, Forall_cons.
  destruct (kind_of (graph s) i) as [k|]; simpl.
  - destruct (cls k) eqn:Hk.
    + rewrite IH. naive_solver.
    + split; [done|]. intros [(k' & [= <-] & Hk') _]. congruence.
  - split; [done|]. by intros [(k' & [=] & _) _].
Qed.

Lemma all_isinstance_total cls l s :
  Forall (λ i, is_Some (graph s !! i)) l →
  ∃ b, (all (λ i, isinstance i cls) l s).1 = Ok b.
Proof.
  induction 1 as [|i l [nd Hnd] _ IH]; simpl; [by eexists|].
  rewrite bind_run, isinstance_run. unfold kind_of. rewrite Hnd. simpl.
  destruct (cls (bn.kind nd)); [done | by eexists].
Qed.

End Runs.

Section Methods.

Context {LatticeTyper : Type}.
Implicit Types (s : LogSumExpFixer LatticeTyper) (n o c r : node_ref).
Implicit Types (g : gmap node_ref bn.BMGNode) (l acc ops : list node_ref).

Local Abbreviation graph s := (nodes (_bmg s)).

Lemma is_ExpNode_true k : bn.is_ExpNode k = true ↔ k = bn.ExpNode.
Proof. by destruct k. Qed.
Lemma is_LogNode_true k : bn.is_LogNode k = true ↔ k = bn.LogNode.
Proof. by destruct k. Qed.
Lemma is_MultiAdditionNode_true k :
  bn.is_MultiAdditionNode k = true ↔ k = bn.MultiAdditionNode.
Proof. by destruct k. Qed.

Lemma Forall_exp_kind g l :
  Forall (λ i, ∃ k, kind_of g i = Some k ∧ bn.is_ExpNode k = true) l
  ↔ Forall (λ c, kind_of g c = Some bn.ExpNode) l.
Proof.
  apply Forall_proper; [|done]. intros c. split.
  - intros (k & -> & ->%is_ExpNode_true). done.
  - intros ->. by eexists.
Qed.

(** *** [_is_exp_input] *)

Lemma _is_exp_input_state o s : (_is_exp_input o s).2 = s.
Proof.
  unfold _is_exp_input. rewrite bind_run, inputs_run.
  destruct (inputs_of (graph s) o); [|done].
  apply all_isinstance_state.
Qed.

Lemma _is_exp_input_true o s :
  (_is_exp_input o s).1 = Ok true
  ↔ ∃ l, inputs_of (graph s) o = Some l
         ∧ Forall (λ c, kind_of (graph s) c = Some bn.ExpNode) l.
Proof.
  unfold _is_exp_input. rewrite bind_run, inputs_run.
  destruct (inputs_of (graph s) o) as [l|]; simpl.
  - rewrite all_isinstance_true, Forall_exp_kind. naive_solver.
  - naive_solver.
Qed.

(** *** [can_be_log_sum_exp] *)

Lemma can_be_log_sum_exp_state n s : (can_be_log_sum_exp n s).2 = s.
Proof.
  unfold can_be_log_sum_exp. rewrite bind_run, operand_run.
  destruct (graph s !! n) as [nd|]; [|done].
  destruct (bn.inputs nd !! 0) as [o|]; [|done].
  rewrite bind_run, isinstance_run.
  destruct (kind_of (graph s) o) as [k|]; [|done].
  destruct (bn.is_MultiAdditionNode k); [|done].
  apply _is_exp_input_state.
Qed.

Lemma can_be_log_sum_exp_true n s :
  (can_be_log_sum_exp n s).1 = Ok true
  ↔ ∃ o l, operand_of (graph s) n = Some o
           ∧ graph s !! o = Some {| bn.kind := bn.MultiAdditionNode;
                                    bn.inputs := l |}
           ∧ Forall (λ c, kind_of (graph s) c = Some bn.ExpNode) l.
Proof.
  unfold can_be_log_sum_exp, operand_of.
  rewrite bind_run, operand_run.
  destruct (graph s !! n) as [nd|]; simpl; [|naive_solver].
  destruct (bn.inputs nd !! 0) as [o|]; simpl; [|naive_solver].
  rewrite bind_run, isinstance_run. unfold kind_of at 1.
  destruct (graph s !! o) as [[k l]|] eqn:Ho; simpl; [|naive_solver].
  destruct (bn.is_MultiAdditionNode k) eqn:Hk.
  - apply is_MultiAdditionNode_true in Hk as ->.
    rewrite _is_exp_input_true. unfold inputs_of. rewrite Ho. simpl.
    split.
    + intros (l' & [= <-] & Hl). eauto.
    + intros (o' & l' & [= <-] & Ho' & Hl). simplify_eq. eauto.
  - split; [done|].
    intros (o' & l' & [= <-] & Ho' & _). simplify_eq.
Qed.

(** *** [_needs_fixing] *)

Lemma _needs_fixing_state n s : (_needs_fixing n s).2 = s.
Proof.
  unfold _needs_fixing. rewrite bind_run, isinstance_run.
  destruct (kind_of (graph s) n) as [k|]; [|done].
  destruct (bn.is_LogNode k); [|done].
  apply can_be_log_sum_exp_state.
Qed.

Lemma _needs_fixing_true n s :
  (_needs_fixing n s).1 = Ok true
  ↔ ∃ o l, log_of_sum_of_exps (graph s) n o l.
Proof.
  unfold _needs_fixing, log_of_sum_of_exps.
  rewrite bind_run, isinstance_run.
  destruct (kind_of (graph s) n) as [k|]; simpl; [|naive_solver].
  destruct (bn.is_LogNode k) eqn:Hk.
  - apply is_LogNode_true in Hk as ->.
    rewrite can_be_log_sum_exp_true. naive_solver.
  - split; [done|]. intros (o & l & [= ->] & _). done.
Qed.

Lemma _needs_fixing_total n s :
  wf_graph (graph s) → is_Some (graph s !! n) →
  ∃ b, (_needs_fixing n s).1 = Ok b.
Proof.
  intros Hwf [nd Hn].
  unfold _needs_fixing. rewrite bind_run, isinstance_run.
  unfold kind_of. rewrite Hn. simpl.
  destruct (bn.is_LogNode (bn.kind nd)) eqn:Hk; [|by eexists].
  destruct (Hwf _ _ Hn) as [Hin Har].
  unfold can_be_log_sum_exp. rewrite bind_run, operand_run, Hn.
  destruct (bn.inputs nd) as [|o ?] eqn:Hi.
  { unfold bn.unary in Har. rewrite Hk in Har. by specialize (Har eq_refl). }
  simpl. apply Forall_cons in Hin as [[ndo Ho] _].
  rewrite bind_run, isinstance_run. unfold kind_of. rewrite Ho. simpl.
  destruct (bn.is_MultiAdditionNode (bn.kind ndo)); [|by eexists].
  unfold _is_exp_input. rewrite bind_run, inputs_run.
  unfold inputs_of. rewrite Ho. simpl.
  apply all_isinstance_total. by destruct (Hwf _ _ Ho).
Qed.

(** *** [_get_replacement] *)

Lemma operand_Some n o s :
  operand_of (graph s) n = Some o → operand n s = (Ok o, s).
Proof.
  unfold operand_of. rewrite operand_run.
  destruct (graph s !! n) as [nd|]; simpl; [|done]. by intros ->.
Qed.

Lemma collect_operands_run l acc ops s :
  exp_operands (graph s) l ops →
  collect_operands l acc s = (Ok (acc ++ ops), s).
Proof.
  intros H. revert acc.
  induction H as [|c a l ops [Hk Ha] _ IH]; intros acc; simpl.
  { by rewrite app_nil_r. }
  rewrite bind_run, isinstance_run, Hk. simpl.
  rewrite bind_run. simpl.
  rewrite bind_run, (operand_Some _ _ _ Ha).
  rewrite IH. by rewrite <- app_assoc.
Qed.

Lemma exp_operands_exist g l :
  wf_graph g →
  Forall (λ c, kind_of g c = Some bn.ExpNode) l →
  ∃ ops, exp_operands g l ops.
Proof.
  intros Hwf. induction 1 as [|c l Hc _ [ops IH]].
  { exists []. constructor. }
  unfold kind_of in Hc. destruct (g !! c) as [nd|] eqn:Hnd; [|done].
  injection Hc as Hk.
  destruct (Hwf _ _ Hnd) as [_ Har]. rewrite Hk in Har.
  specialize (Har eq_refl).
  destruct (bn.inputs nd) as [|a [|??]] eqn:Hi; try done.
  exists (a :: ops). constructor; [|done].
  unfold kind_of, operand_of. rewrite Hnd. simpl. by rewrite Hk, Hi.
Qed.

Lemma exp_operands_frame g g' l ops :
  (∀ c nd, g !! c = Some nd → g' !! c = Some nd) →
  exp_operands g l ops → exp_operands g' l ops.
Proof.
  intros Hsub Hops. eapply Forall2_impl; [exact Hops|]. intros c a.
  unfold kind_of, operand_of.
  destruct (g !! c) as [nd|] eqn:Hc; [|naive_solver].
  by rewrite (Hsub _ _ Hc).
Qed.

Lemma _get_replacement_run n o l ops s :
  log_of_sum_of_exps (graph s) n o l →
  exp_operands (graph s) l ops →
  _get_replacement n s =
    (Ok (Some (fresh (dom (graph s)))),
     with_node s (fresh (dom (graph s)))
       {| bn.kind := bn.LogSumExpNode; bn.inputs := ops |}).
Proof.
  intros Hpat Hops.
  assert (Htrue : (can_be_log_sum_exp n s).1 = Ok true).
  { apply can_be_log_sum_exp_true. destruct Hpat as (_ & ? & ? & ?). eauto. }
  pose proof (can_be_log_sum_exp_state n s) as Hst.
  destruct Hpat as (Hn & Hon & Ho & Hl).
  unfold _get_replacement.
  rewrite bind_run, isinstance_run, Hn. simpl.
  rewrite bind_run. simpl. rewrite bind_run.
  destruct (can_be_log_sum_exp n s) as [x s']. simpl in *. subst x s'.
  rewrite bind_run. simpl.
  rewrite bind_run, (operand_Some _ _ _ Hon).
  rewrite bind_run, inputs_run. unfold inputs_of. rewrite Ho. simpl.
  rewrite bind_run, (collect_operands_run _ _ _ _ Hops). simpl.
  rewrite bind_run, (operand_Some _ _ _ Hon).
  rewrite bind_run, inputs_run. unfold inputs_of. rewrite Ho. simpl.
  rewrite bind_run.
  rewrite bool_decide_eq_true_2 by (symmetry; eapply Forall2_length, Hops).
  reflexivity.
Qed.

Lemma _get_replacement_rejects n s :
  (_needs_fixing n s).1 = Ok false →
  _get_replacement n s = (Raise AssertionError, s).
Proof.
  unfold _needs_fixing, _get_replacement.
  rewrite !bind_run, isinstance_run.
  destruct (kind_of (graph s) n) as [k|]; simpl; [|done].
  destruct (bn.is_LogNode k); simpl; [|done].
  rewrite !bind_run. simpl. rewrite bind_run.
  pose proof (can_be_log_sum_exp_state n s) as Hst.
  destruct (can_be_log_sum_exp n s) as [x s']. simpl in *. subst s'.
  by intros ->.
Qed.

End Methods.

Example flat_needs_fixing :
  fst (_needs_fixing 7 (fixer_on flat_graph)) = Ok true.
Proof. vm_compute. reflexivity. Qed.

Example flat_wf : wf_graph flat_graph.
Proof. apply (bool_decide_unpack _). vm_compute. reflexivity. Qed.

Example flat_replacement :
  fst (_get_replacement 7 (fixer_on flat_graph)) = Ok (Some 8).
Proof. vm_compute. reflexivity. Qed.

Example flat_replacement_node :
  nodes (_bmg (snd (_get_replacement 7 (fixer_on flat_graph)))) !! 8
  = Some (mk bn.LogSumExpNode [0; 1; 2]).
Proof. vm_compute. reflexivity. Qed.

Example flat_consumers :
  consumers_of (nodes (_bmg (snd (_get_replacement 7 (fixer_on flat_graph))))) 0
  = {[3; 8]}.
Proof. apply (bool_decide_unpack _). vm_compute. reflexivity. Qed.

(** ** The fixer's contract *)

Section Contract.

Context {LatticeTyper : Type}.
Implicit Types (s : LogSumExpFixer LatticeTyper) (n o c r : node_ref).
Implicit Types (g : gmap node_ref bn.BMGNode) (l acc ops : list node_ref).

Local Abbreviation graph s := (nodes (_bmg s)).

Lemma pair_eq {A B} (p : A * B) a b : p.1 = a → p.2 = b → p = (a, b).
Proof. destruct p. simpl. congruence. Qed.

(** C1: on a node of a well-formed graph [_needs_fixing] returns a boolean
    and leaves the fixer as it was; the boolean is true exactly when the
    node is a Log node, its operand a MultiAdd node, and every input of
    that MultiAdd node an Exp node. *)
Theorem needs_fixing_iff_pattern s n :
  wf_graph (graph s) → is_Some (graph s !! n) →
  ∃ b, _needs_fixing n s = (Ok b, s)
       ∧ (b = true ↔ ∃ o l, log_of_sum_of_exps (graph s) n o l).
Proof.
  intros Hwf Hn.
  destruct (_needs_fixing_total n s Hwf Hn) as [b Hb].
  exists b. split.
  - apply pair_eq; [done | apply _needs_fixing_state].
  - rewrite <- _needs_fixing_true, Hb. naive_solver.
Qed.

Lemma fresh_unused g : g !! fresh (dom g) = None.
Proof. apply not_elem_of_dom, is_fresh. Qed.

Lemma with_node_lookup s r nd : graph (with_node s r nd) !! r = Some nd.
Proof. apply lookup_insert_eq. Qed.

Lemma with_node_frame s r nd x ndx :
  graph s !! r = None → graph s !! x = Some ndx →
  graph (with_node s r nd) !! x = Some ndx.
Proof.
  intros Hr Hx. simpl. rewrite lookup_insert_ne; [done|]. congruence.
Qed.

Lemma exp_operands_lookup g l ops i c :
  exp_operands g l ops → l !! i = Some c →
  ∃ a, operand_of g c = Some a ∧ ops !! i = Some a.
Proof.
  intros Hops Hc.
  destruct (Forall2_lookup_l _ _ _ _ _ Hops Hc) as (a & Ha & _ & Hop).
  eauto.
Qed.

Lemma exp_operands_inj g l ops ops' :
  exp_operands g l ops → exp_operands g l ops' → ops = ops'.
Proof.
  intros H. revert ops'.
  induction H as [|c a l ops [_ Ha] _ IH]; intros ops' H'.
  - by apply Forall2_nil_inv_l in H'.
  - apply Forall2_cons_inv_l in H' as (a' & ops'' & [_ Ha'] & H' & ->).
    f_equal; [congruence | by apply IH].
Qed.

(** C2: when [_needs_fixing] holds of [n], a Log node over a MultiAdd node
    over the Exp nodes [l], [_get_replacement] returns one node, new to the
    graph, of kind LogSumExp; it has as many inputs as [l], the i-th being
    the operand of the i-th Exp node.  For [[Exp(a); Exp(b); Exp(c)]] the
    inputs are [[a; b; c]]. *)
Theorem get_replacement_is_logsumexp s n :
  wf_graph (graph s) →
  (_needs_fixing n s).1 = Ok true →
  ∃ o l ops r s',
    log_of_sum_of_exps (graph s) n o l
    ∧ _get_replacement n s = (Ok (Some r), s')
    ∧ graph s !! r = None
    ∧ graph s' = <[r := {| bn.kind := bn.LogSumExpNode; bn.inputs := ops |}]> (graph s)
    ∧ kind_of (graph s') r = Some bn.LogSumExpNode
    ∧ inputs_of (graph s') r = Some ops
    ∧ length ops = length l
    ∧ (∀ i c, l !! i = Some c →
         ∃ a, kind_of (graph s) c = Some bn.ExpNode
              ∧ operand_of (graph s) c = Some a ∧ ops !! i = Some a)
    ∧ (∀ e1 e2 e3 a b c,
         l = [e1; e2; e3] →
         operand_of (graph s) e1 = Some a →
         operand_of (graph s) e2 = Some b →
         operand_of (graph s) e3 = Some c →
         ops = [a; b; c]).
Proof.
  intros Hwf Hfix. apply _needs_fixing_true in Hfix as (o & l & Hpat).
  destruct (exp_operands_exist _ l Hwf) as [ops Hops].
  { by destruct Hpat as (_ & _ & _ & ?). }
  exists o, l, ops, (fresh (dom (graph s))). eexists.
  split; [done|].
  split; [by apply (_get_replacement_run n o l ops)|].
  split; [apply fresh_unused|].
  split; [done|].
  unfold kind_of, inputs_of. rewrite with_node_lookup. simpl.
  split; [done|]. split; [done|].
  split; [symmetry; eapply Forall2_length, Hops|].
  split.
  - intros i c Hc.
    destruct (Forall2_lookup_l _ _ _ _ _ Hops Hc) as (a & Ha & Hk & Hop).
    eauto.
  - intros e1 e2 e3 a b c -> Ha Hb Hc.
    apply (exp_operands_inj (graph s) [e1; e2; e3]); [done|].
    destruct Hpat as (_ & _ & _ & Hl).
    apply Forall_cons in Hl as [H1 Hl].
    apply Forall_cons in Hl as [H2 Hl].
    apply Forall_cons in Hl as [H3 _].
    repeat constructor; done.
Qed.

(** C3: when [_needs_fixing] is true, [_get_replacement] returns a node:
    not [None], and no assertion fails.  When [_needs_fixing] is false,
    [_get_replacement] stops at an assertion and leaves the fixer as it
    was.  So the engine's visit of a node never ends in the fatal mismatch
    of predicate and replacement, whatever [Graph.replace] does. *)
Theorem get_replacement_agrees_with_needs_fixing s n :
  wf_graph (graph s) →
  ((_needs_fixing n s).1 = Ok true →
     ∃ r s', _get_replacement n s = (Ok (Some r), s'))
  ∧ ((_needs_fixing n s).1 = Ok false →
     _get_replacement n s = (Raise AssertionError, s))
  ∧ (∀ replace s', visit replace n s ≠ (Raise FixerContractViolation, s')).
Proof.
  intros Hwf. split; [|split].
  - intros Hfix. apply _needs_fixing_true in Hfix as (o & l & Hpat).
    destruct (exp_operands_exist _ l Hwf) as [ops Hops].
    { by destruct Hpat as (_ & _ & _ & ?). }
    rewrite (_get_replacement_run n o l ops) by done. eauto.
  - apply _get_replacement_rejects.
  - intros replace s'. unfold visit. rewrite bind_run.
    destruct (graph s !! n) as [nd|] eqn:Hn.
    + destruct (_needs_fixing_total n s Hwf) as [b Hb]; [by eexists|].
      pose proof (_needs_fixing_state n s) as Hst.
      pose proof (proj1 (_needs_fixing_true n s)) as Htrue.
      destruct (_needs_fixing n s) as [x s1]. simpl in *. subst x s1.
      destruct b; [|done].
      destruct (Htrue eq_refl) as (o & l & Hpat).
      destruct (exp_operands_exist _ l Hwf) as [ops Hops].
      { by destruct Hpat as (_ & _ & _ & ?). }
      rewrite bind_run, (_get_replacement_run n o l ops) by done.
      by case_decide.
    + unfold _needs_fixing. rewrite bind_run, isinstance_run.
      unfold kind_of. by rewrite Hn.
Qed.

(** C9: for a Log node over a MultiAdd node without inputs,
    [_needs_fixing] returns true and [_get_replacement] returns a new
    LogSumExp node without inputs. *)
Theorem empty_sum_is_fixed s n o :
  kind_of (graph s) n = Some bn.LogNode →
  operand_of (graph s) n = Some o →
  graph s !! o = Some {| bn.kind := bn.MultiAdditionNode; bn.inputs := [] |} →
  _needs_fixing n s = (Ok true, s)
  ∧ ∃ r, graph s !! r = None
         ∧ _get_replacement n s =
             (Ok (Some r),
              with_node s r {| bn.kind := bn.LogSumExpNode; bn.inputs := [] |}).
Proof.
  intros Hn Hon Ho.
  assert (Hpat : log_of_sum_of_exps (graph s) n o []) by done.
  split.
  - apply pair_eq; [|apply _needs_fixing_state].
    apply _needs_fixing_true. eauto.
  - exists (fresh (dom (graph s))). split; [apply fresh_unused|].
    apply (_get_replacement_run n o [] []); [done | constructor].
Qed.

(** *** Nodes that are not rewritten *)

Lemma needs_fixing_not_log s n k :
  kind_of (graph s) n = Some k → bn.is_LogNode k = false →
  _needs_fixing n s = (Ok false, s).
Proof.
  intros Hk Hlog. unfold _needs_fixing.
  by rewrite bind_run, isinstance_run, Hk, Hlog.
Qed.

Lemma needs_fixing_no_pattern s n :
  wf_graph (graph s) → is_Some (graph s !! n) →
  ¬ (∃ o l, log_of_sum_of_exps (graph s) n o l) →
  _needs_fixing n s = (Ok false, s).
Proof.
  intros Hwf Hn Hno.
  destruct (_needs_fixing_total n s Hwf Hn) as [b Hb].
  apply pair_eq; [|apply _needs_fixing_state].
  destruct b; [|done].
  by apply _needs_fixing_true in Hb.
Qed.

Lemma add_chain_not_log s o ms :
  add_chain (graph s) o ms →
  Forall (λ m, _needs_fixing m s = (Ok false, s)) ms.
Proof.
  induction 1 as [o e1 e2 Ho H1 H2|o p e ms Ho _ IH He].
  - constructor.
    { apply (needs_fixing_not_log _ _ bn.AdditionNode); [|done].
      unfold kind_of. by rewrite Ho. }
    constructor; [by apply (needs_fixing_not_log _ _ bn.ExpNode)|].
    constructor; [by apply (needs_fixing_not_log _ _ bn.ExpNode)|].
    constructor.
  - constructor.
    { apply (needs_fixing_not_log _ _ bn.AdditionNode); [|done].
      unfold kind_of. by rewrite Ho. }
    constructor; [by apply (needs_fixing_not_log _ _ bn.ExpNode)|].
    done.
Qed.

(** C6: of a Log node whose operand is a binary addition, and not a
    MultiAdd node, [_needs_fixing] is false, whatever the addition is over.
    When the operand is a left-associated chain of binary additions over Exp
    nodes, of any length from two summands on, [_needs_fixing] is false of
    the Log node and of every node of the chain, so the fixer alone rewrites
    none of them. *)
Theorem chain_form_is_left_alone s n o :
  kind_of (graph s) n = Some bn.LogNode →
  operand_of (graph s) n = Some o →
  kind_of (graph s) o = Some bn.AdditionNode →
  _needs_fixing n s = (Ok false, s)
  ∧ ∀ ms, add_chain (graph s) o ms →
          Forall (λ m, _needs_fixing m s = (Ok false, s)) (n :: ms).
Proof.
  intros Hn Hon Ho.
  assert (Hfalse : _needs_fixing n s = (Ok false, s)).
  { unfold _needs_fixing, can_be_log_sum_exp.
    rewrite bind_run, isinstance_run, Hn. simpl.
    rewrite bind_run, (operand_Some _ _ _ Hon).
    by rewrite bind_run, isinstance_run, Ho. }
  split; [done|]. intros ms Hms. constructor; [done|].
  by eapply add_chain_not_log.
Qed.

(** C7: for a Log node over a MultiAdd node one of whose inputs is not an
    Exp node, [_needs_fixing] returns false, and the fixer, its graph
    included, is after the call what it was before. *)
Theorem non_exp_input_is_left_alone s n o l c k :
  wf_graph (graph s) →
  kind_of (graph s) n = Some bn.LogNode →
  operand_of (graph s) n = Some o →
  graph s !! o = Some {| bn.kind := bn.MultiAdditionNode; bn.inputs := l |} →
  c ∈ l → kind_of (graph s) c = Some k → k ≠ bn.ExpNode →
  _needs_fixing n s = (Ok false, s).
Proof.
  intros Hwf Hn Hon Ho Hc Hk Hne.
  apply needs_fixing_no_pattern; [done| |].
  { unfold kind_of in Hn. by destruct (graph s !! n). }
  intros (o' & l' & _ & Hon' & Ho' & Hl). simplify_eq.
  rewrite Forall_forall in Hl. specialize (Hl _ Hc). congruence.
Qed.

(** *** The graph around the replacement *)

Lemma elem_of_consumers_of g a x :
  x ∈ consumers_of g a ↔ ∃ nd, g !! x = Some nd ∧ a ∈ bn.inputs nd.
Proof.
  unfold consumers_of. rewrite elem_of_dom. unfold is_Some.
  setoid_rewrite map_lookup_filter_Some. done.
Qed.

Lemma consumers_of_insert g a r nd :
  g !! r = None → a ∈ bn.inputs nd →
  consumers_of (<[r := nd]> g) a = consumers_of g a ∪ {[r]}.
Proof.
  intros Hr Ha. apply set_eq. intros x.
  rewrite elem_of_union, elem_of_singleton, !elem_of_consumers_of.
  destruct (decide (x = r)) as [->|Hx].
  - rewrite lookup_insert_eq. naive_solver.
  - rewrite lookup_insert_ne by done. naive_solver.
Qed.

Lemma exp_operands_allocated g l ops a :
  wf_graph g → exp_operands g l ops → a ∈ ops → is_Some (g !! a).
Proof.
  intros Hwf Hops Ha.
  apply list_elem_of_lookup in Ha as [i Ha].
  destruct (Forall2_lookup_r _ _ _ _ _ Hops Ha) as (c & _ & _ & Hop).
  unfold operand_of in Hop.
  destruct (g !! c) as [nd|] eqn:Hc; [|done]. simpl in Hop.
  destruct (Hwf _ _ Hc) as [Hin _].
  rewrite Forall_forall in Hin. apply Hin.
  apply list_elem_of_lookup. eauto.
Qed.

Lemma all_isinstance_frame cls l s s' :
  (∀ x nd, graph s !! x = Some nd → graph s' !! x = Some nd) →
  Forall (λ i, is_Some (graph s !! i)) l →
  (all (λ i, isinstance i cls) l s').1 = (all (λ i, isinstance i cls) l s).1.
Proof.
  intros Hsub. induction 1 as [|i l [nd Hi] _ IH]; [done|].
  simpl. rewrite !bind_run, !isinstance_run. unfold kind_of.
  rewrite Hi, (Hsub _ _ Hi). simpl.
  by destruct (cls (bn.kind nd)).
Qed.

Lemma needs_fixing_frame s s' m :
  wf_graph (graph s) →
  (∀ x nd, graph s !! x = Some nd → graph s' !! x = Some nd) →
  is_Some (graph s !! m) →
  (_needs_fixing m s').1 = (_needs_fixing m s).1.
Proof.
  intros Hwf Hsub [nd Hm].
  unfold _needs_fixing. rewrite !bind_run, !isinstance_run. unfold kind_of.
  rewrite Hm, (Hsub _ _ Hm). simpl.
  destruct (bn.is_LogNode (bn.kind nd)); [|done].
  unfold can_be_log_sum_exp. rewrite !bind_run, !operand_run.
  rewrite Hm, (Hsub _ _ Hm).
  destruct (Hwf _ _ Hm) as [Hin _].
  destruct (bn.inputs nd) as [|o ?]; [done|]. simpl.
  apply Forall_cons in Hin as [[ndo Ho] _].
  rewrite !bind_run, !isinstance_run. unfold kind_of.
  rewrite Ho, (Hsub _ _ Ho). simpl.
  destruct (bn.is_MultiAdditionNode (bn.kind ndo)); [|done].
  unfold _is_exp_input. rewrite !bind_run, !inputs_run. unfold inputs_of.
  rewrite Ho, (Hsub _ _ Ho). simpl.
  apply all_isinstance_frame; [done|]. by destruct (Hwf _ _ Ho).
Qed.

(** *** The engine at a fixed point *)

Lemma collect_operands_state l acc s : (collect_operands l acc s).2 = s.
Proof.
  revert acc. induction l as [|c l IH]; intros acc; [done|].
  simpl. rewrite bind_run, isinstance_run.
  destruct (kind_of (graph s) c) as [k|]; [|done].
  destruct (bn.is_ExpNode k); [|done]. simpl.
  rewrite bind_run. simpl. rewrite bind_run, operand_run.
  destruct (graph s !! c) as [nd|]; [|done].
  destruct (bn.inputs nd !! 0); [|done]. apply IH.
Qed.

Lemma bind_reads_Ok {A B} (m : M LatticeTyper A) (k : A → M LatticeTyper B) s y s' :
  (m s).2 = s → bind m k s = (Ok y, s') →
  ∃ a, (m s).1 = Ok a ∧ k a s = (Ok y, s').
Proof.
  unfold bind. destruct (m s) as [[a|e] s1]; simpl; intros ->; [|done].
  eauto.
Qed.

Lemma isinstance_state n cls s : (isinstance n cls s).2 = s.
Proof. by rewrite isinstance_run. Qed.
Lemma inputs_state n s : (inputs n s).2 = s.
Proof. by rewrite inputs_run. Qed.
Lemma operand_state n s : (operand n s).2 = s.
Proof. by rewrite operand_run. Qed.
Lemma assert_state b s : (assert (LatticeTyper := LatticeTyper) b s).2 = s.
Proof. by destruct b. Qed.

(** Whenever [_get_replacement] returns, it returns the node the graph
    builder has just added. *)
Lemma _get_replacement_fresh n s x s' :
  _get_replacement n s = (Ok x, s') →
  x = Some (fresh (dom (graph s))) ∧ graph s' !! fresh (dom (graph s)) ≠ None.
Proof.
  unfold _get_replacement. intros Hrun.
  apply bind_reads_Ok in Hrun as (b & _ & Hrun); [|apply isinstance_state].
  apply bind_reads_Ok in Hrun as (? & _ & Hrun); [|apply assert_state].
  apply bind_reads_Ok in Hrun as (b' & _ & Hrun);
    [|apply can_be_log_sum_exp_state].
  apply bind_reads_Ok in Hrun as (? & _ & Hrun); [|apply assert_state].
  apply bind_reads_Ok in Hrun as (o & _ & Hrun); [|apply operand_state].
  apply bind_reads_Ok in Hrun as (l & _ & Hrun); [|apply inputs_state].
  apply bind_reads_Ok in Hrun as (acc & _ & Hrun);
    [|apply collect_operands_state].
  apply bind_reads_Ok in Hrun as (o' & _ & Hrun); [|apply operand_state].
  apply bind_reads_Ok in Hrun as (l' & _ & Hrun); [|apply inputs_state].
  apply bind_reads_Ok in Hrun as (? & _ & Hrun); [|apply assert_state].
  unfold bind, add_logsumexp, ret in Hrun. injection Hrun as <- <-.
  split; [done|]. simpl. by rewrite lookup_insert_eq.
Qed.

Section EngineProofs.

Variable topological_order : gmap node_ref bn.BMGNode → list node_ref.
Variable replace :
  node_ref → node_ref → gmap node_ref bn.BMGNode → gmap node_ref bn.BMGNode.


(** A visit that replaces nothing has found nothing to fix, and has left
    the fixer as it was. *)
Lemma visit_zero n s s' :
  visit replace n s = (Ok 0, s') → s' = s ∧ (_needs_fixing n s).1 = Ok false.
Proof.
  unfold visit. intros Hrun.
  apply bind_reads_Ok in Hrun as (b & Hb & Hrun); [|apply _needs_fixing_state].
  destruct b; [|by injection Hrun as <-].
  exfalso.
  apply _needs_fixing_true in Hb as (o & l & Hn & _).
  unfold bind in Hrun.
  destruct (_get_replacement n s) as [[x|e] s1] eqn:Hget; [|done].
  apply _get_replacement_fresh in Hget as [-> _].
  rewrite decide_False in Hrun; [done|].
  intros Heq. pose proof (fresh_unused (graph s)) as Hfresh.
  rewrite Heq in Hfresh. unfold kind_of in Hn. by rewrite Hfresh in Hn.
Qed.

Lemma traverse_zero l count s s' :
  traverse replace l count s = (Ok 0, s') →
  count = 0 ∧ s' = s ∧ Forall (λ n, (_needs_fixing n s).1 = Ok false) l.
Proof.
  revert count s. induction l as [|n l IH]; intros count s; simpl.
  { by intros [= -> ->]. }
  unfold bind at 1.
  destruct (visit replace n s) as [[k|e] s1] eqn:Hvisit; [|done].
  intros (Hc & -> & Hl)%IH.
  assert (k = 0) as -> by lia.
  apply visit_zero in Hvisit as [-> Hn].
  split; [lia|]. split; [done|]. by constructor.
Qed.

Lemma traverse_quiet l count s :
  Forall (λ n, (_needs_fixing n s).1 = Ok false) l →
  traverse replace l count s = (Ok count, s).
Proof.
  intros Hl. revert count.
  induction Hl as [|n l Hn _ IH]; intros count; [done|].
  simpl. unfold bind at 1, visit. rewrite bind_run.
  pose proof (_needs_fixing_state n s) as Hst.
  destruct (_needs_fixing n s) as [x s1]. simpl in *. subst x s1.
  unfold ret. by rewrite IH, Nat.add_0_r.
Qed.

Lemma pass_zero s s' :
  pass topological_order replace s = (Ok 0, s') → s' = s ∧ pass topological_order replace s' = (Ok 0, s').
Proof.
  unfold pass. intros Hrun.
  pose proof Hrun as (_ & -> & Hl)%traverse_zero.
  split; [done|]. by apply traverse_quiet.
Qed.

(** A run that returns has ended on a pass without replacements. *)
Lemma run_returns fuel total s k s' :
  run topological_order replace fuel total s = (Ok k, s') → pass topological_order replace s' = (Ok 0, s').
Proof.
  revert total s. induction fuel as [|fuel IH]; intros total s; [done|].
  simpl. unfold bind at 1.
  destruct (pass topological_order replace s) as [[j|e] s1] eqn:Hpass; [|done].
  case_decide as Hj.
  - subst j. intros [= <- <-]. by apply pass_zero in Hpass as [_ ?].
  - apply IH.
Qed.

(** C4: when a run of the engine with this fixer has returned, a second run
    on its output makes zero replacements, and [_needs_fixing] is false of
    every node of the traversal.  The node [_get_replacement] returns for a
    node that needs fixing is a LogSumExp node, not a Log node;
    [_needs_fixing] is false of it, then and in every later state of the
    fixer in which it is still a LogSumExp node; and adding it changes the
    answer of [_needs_fixing] for no node the graph had before. *)
Theorem replacement_needs_no_fixing :
  (∀ fuel s k s',
     run topological_order replace fuel 0 s = (Ok k, s') →
     Forall (λ m, _needs_fixing m s' = (Ok false, s'))
       (topological_order (graph s'))
     ∧ ∀ fuel', run topological_order replace (S fuel') 0 s' = (Ok 0, s'))
  ∧ (∀ s n,
       wf_graph (graph s) →
       (_needs_fixing n s).1 = Ok true →
       ∃ r s',
         _get_replacement n s = (Ok (Some r), s')
         ∧ kind_of (graph s') r = Some bn.LogSumExpNode
         ∧ kind_of (graph s') r ≠ Some bn.LogNode
         ∧ _needs_fixing r s' = (Ok false, s')
         ∧ (∀ s'', kind_of (graph s'') r = Some bn.LogSumExpNode →
                   _needs_fixing r s'' = (Ok false, s''))
         ∧ (∀ m, is_Some (graph s !! m) →
                 (_needs_fixing m s').1 = (_needs_fixing m s).1)).
Proof.
  split.
  { intros fuel s k s' Hrun. apply run_returns in Hrun.
    split.
    - pose proof Hrun as (_ & _ & Hl)%traverse_zero.
      eapply Forall_impl; [exact Hl|]. intros m Hm.
      apply pair_eq; [done | apply _needs_fixing_state].
    - intros fuel'. simpl. unfold bind. by rewrite Hrun. }
  intros s n Hwf Hfix. apply _needs_fixing_true in Hfix as (o & l & Hpat).
  destruct (exp_operands_exist _ l Hwf) as [ops Hops].
  { by destruct Hpat as (_ & _ & _ & ?). }
  eexists _, _. split; [by apply (_get_replacement_run n o l ops)|].
  assert (Hk : kind_of (graph (with_node s (fresh (dom (graph s)))
                 {| bn.kind := bn.LogSumExpNode; bn.inputs := ops |}))
                 (fresh (dom (graph s))) = Some bn.LogSumExpNode).
  { unfold kind_of. by rewrite with_node_lookup. }
  split; [done|]. split; [by rewrite Hk|].
  split; [by apply (needs_fixing_not_log _ _ bn.LogSumExpNode)|].
  split.
  - intros s'' Hk''. by apply (needs_fixing_not_log _ _ bn.LogSumExpNode).
  - intros m Hm. apply needs_fixing_frame; [done| |done].
    intros x nd. apply with_node_frame, fresh_unused.
Qed.

End EngineProofs.

(** C5: the inputs of the replacement are the very references the Exp nodes
    hold as operands.  Every node the graph had keeps its kind and inputs:
    a consumer [x] of an Exp node [c] of the pattern still consumes [c], at
    the same positions, also once the consumers of [n] are rewired to the
    replacement.  Every operand [a] stays in the graph as it was, and its
    consumers are those it had and the replacement, which was none of
    them. *)
Theorem replacement_preserves_sharing s n :
  wf_graph (graph s) →
  (_needs_fixing n s).1 = Ok true →
  ∃ o l ops r s',
    log_of_sum_of_exps (graph s) n o l
    ∧ exp_operands (graph s) l ops
    ∧ _get_replacement n s = (Ok (Some r), s')
    ∧ inputs_of (graph s') r = Some ops
    ∧ (∀ x nd, graph s !! x = Some nd → graph s' !! x = Some nd)
    ∧ (∀ c x, c ∈ l → x ∈ consumers_of (graph s) c →
         x ∈ consumers_of (graph s') c
         ∧ ∃ nd, graph s !! x = Some nd ∧ graph s' !! x = Some nd
                 ∧ ∀ i, bn.inputs nd !! i = Some c →
                        bn.inputs (rewire n r nd) !! i = Some c)
    ∧ (∀ a, a ∈ ops →
         is_Some (graph s !! a)
         ∧ (graph s' !! a) = (graph s !! a)
         ∧ (r ∉ consumers_of (graph s) a)
         ∧ consumers_of (graph s') a = consumers_of (graph s) a ∪ {[r]}).
Proof.
  intros Hwf Hfix. apply _needs_fixing_true in Hfix as (o & l & Hpat).
  destruct (exp_operands_exist _ l Hwf) as [ops Hops].
  { by destruct Hpat as (_ & _ & _ & ?). }
  pose proof (fresh_unused (graph s)) as Hr.
  set (r := fresh (dom (graph s))) in *.
  exists o, l, ops, r. eexists.
  split; [done|]. split; [done|].
  split; [by apply (_get_replacement_run n o l ops)|].
  assert (Hframe : ∀ x nd, graph s !! x = Some nd →
            graph (with_node s r {| bn.kind := bn.LogSumExpNode;
                                    bn.inputs := ops |}) !! x = Some nd).
  { intros x nd. by apply with_node_frame. }
  split; [unfold inputs_of; by rewrite with_node_lookup|].
  split; [done|].
  split.
  - intros c x Hc Hx.
    apply elem_of_consumers_of in Hx as (nd & Hnd & Hin).
    split; [apply elem_of_consumers_of; eauto|].
    exists nd. split; [done|]. split; [by apply Hframe|].
    intros i Hi. simpl. rewrite list_lookup_fmap, Hi. simpl.
    rewrite decide_False; [done|]. intros ->.
    destruct Hpat as (Hn & _ & _ & Hl).
    rewrite Forall_forall in Hl. specialize (Hl _ Hc). congruence.
  - intros a Ha.
    destruct (exp_operands_allocated _ _ _ _ Hwf Hops Ha) as [nda Hnda].
    split; [by eexists|].
    split; [by rewrite Hnda; apply Hframe|].
    split.
    + rewrite elem_of_consumers_of. intros (nd & Hnd & _). congruence.
    + by apply consumers_of_insert.
Qed.

End Contract.


(** ** The fixer looks at structure only *)

Section Structural.

Context {T1 T2 : Type}.
Variable R : list (node_ref * node_ref).

Local Abbreviation reads := (@reads T1 T2 R).

Local Abbreviation graph s := (nodes (_bmg s)).

Lemma reads_ret {A B} (P : A → B → Prop) a b :
  P a b → reads P (ret a) (ret b).
Proof. by intros HP s1 s2 _. Qed.

Lemma reads_raise {A B} (P : A → B → Prop) e :
  reads P (raise e) (raise e).
Proof. by intros s1 s2 _. Qed.

Lemma reads_bind {A B A' B'} (P : A → B → Prop) (Q : A' → B' → Prop)
    m1 m2 (k1 : A → M T1 A') (k2 : B → M T2 B') :
  reads P m1 m2 →
  (∀ a b, P a b → reads Q (k1 a) (k2 b)) →
  reads Q (bind m1 k1) (bind m2 k2).
Proof.
  intros Hm Hk s1 s2 Hs. destruct (Hm s1 s2 Hs) as (H1 & H2 & Ho).
  unfold bind.
  destruct (m1 s1) as [[a|e1] s1'], (m2 s2) as [[b|e2] s2'];
    simpl in *; subst; try done.
  by apply Hk.
Qed.

Lemma reads_assert b : reads (λ _ _, True) (assert b) (assert b).
Proof. destruct b; [by apply reads_ret | apply reads_raise]. Qed.

Lemma reads_deref n1 n2 :
  (n1, n2) ∈ R → reads (same_node R) (deref n1) (deref n2).
Proof.
  intros Hn s1 s2 Hs. unfold same_structure in Hs.
  rewrite Forall_forall in Hs. specialize (Hs _ Hn).
  unfold same_at in Hs. simpl in Hs. unfold deref.
  destruct (graph s1 !! n1); [|done].
  by destruct (graph s2 !! n2).
Qed.

Lemma is_LogNode_structural : structural bn.is_LogNode.
Proof. intros [] []; done. Qed.
Lemma is_ExpNode_structural : structural bn.is_ExpNode.
Proof. intros [] []; done. Qed.
Lemma is_MultiAdditionNode_structural : structural bn.is_MultiAdditionNode.
Proof. intros [] []; done. Qed.

Lemma reads_isinstance cls n1 n2 :
  structural cls → (n1, n2) ∈ R →
  reads eq (isinstance n1 cls) (isinstance n2 cls).
Proof.
  intros Hcls Hn. eapply reads_bind; [by apply reads_deref|].
  intros nd1 nd2 [Hk _]. apply reads_ret. by apply Hcls.
Qed.

Lemma reads_inputs n1 n2 :
  (n1, n2) ∈ R →
  reads (Forall2 (λ i1 i2, (i1, i2) ∈ R)) (inputs n1) (inputs n2).
Proof.
  intros Hn. eapply reads_bind; [by apply reads_deref|].
  intros nd1 nd2 [_ Hi]. by apply reads_ret.
Qed.

Lemma reads_operand n1 n2 :
  (n1, n2) ∈ R →
  reads (λ o1 o2, (o1, o2) ∈ R) (operand n1) (operand n2).
Proof.
  intros Hn. eapply reads_bind; [by apply reads_deref|].
  intros nd1 nd2 [_ Hi].
  destruct Hi; simpl; [apply reads_raise | by apply reads_ret].
Qed.

Lemma reads_all_isinstance cls l1 l2 :
  structural cls →
  Forall2 (λ i1 i2, (i1, i2) ∈ R) l1 l2 →
  reads eq (all (λ i, isinstance i cls) l1) (all (λ i, isinstance i cls) l2).
Proof.
  intros Hcls. induction 1 as [|i1 i2 l1 l2 Hi _ IH]; simpl.
  { by apply reads_ret. }
  eapply reads_bind; [by apply reads_isinstance|].
  intros b ? <-. destruct b; [done | by apply reads_ret].
Qed.

Lemma reads_is_exp_input o1 o2 :
  (o1, o2) ∈ R → reads eq (_is_exp_input o1) (_is_exp_input o2).
Proof.
  intros Ho. eapply reads_bind; [by apply reads_inputs|].
  intros l1 l2 Hl.
  by apply reads_all_isinstance; [apply is_ExpNode_structural|].
Qed.

Lemma reads_can_be_log_sum_exp n1 n2 :
  (n1, n2) ∈ R → reads eq (can_be_log_sum_exp n1) (can_be_log_sum_exp n2).
Proof.
  intros Hn. eapply reads_bind; [by apply reads_operand|].
  intros o1 o2 Ho. eapply reads_bind.
  { by apply reads_isinstance; [apply is_MultiAdditionNode_structural|]. }
  intros b ? <-.
  destruct b; [by apply reads_is_exp_input | by apply reads_ret].
Qed.

Lemma reads_needs_fixing n1 n2 :
  (n1, n2) ∈ R → reads eq (_needs_fixing n1) (_needs_fixing n2).
Proof.
  intros Hn. eapply reads_bind.
  { by apply reads_isinstance; [apply is_LogNode_structural|]. }
  intros b ? <-.
  destruct b; [by apply reads_can_be_log_sum_exp | by apply reads_ret].
Qed.

Lemma reads_collect_operands l1 l2 acc1 acc2 :
  Forall2 (λ i1 i2, (i1, i2) ∈ R) l1 l2 →
  Forall2 (λ i1 i2, (i1, i2) ∈ R) acc1 acc2 →
  reads (Forall2 (λ i1 i2, (i1, i2) ∈ R))
    (collect_operands l1 acc1) (collect_operands l2 acc2).
Proof.
  intros Hl. revert acc1 acc2.
  induction Hl as [|c1 c2 l1 l2 Hc _ IH]; intros acc1 acc2 Hacc; simpl.
  { by apply reads_ret. }
  eapply reads_bind.
  { by apply reads_isinstance; [apply is_ExpNode_structural|]. }
  intros b ? <-. eapply reads_bind; [apply reads_assert|].
  intros _ _ _. eapply reads_bind; [by apply reads_operand|].
  intros a1 a2 Ha. apply IH. apply Forall2_app; [done|].
  by repeat constructor.
Qed.

Lemma reads_then {A B A' B'} (P : A → B → Prop)
    (Post : outcome A' * LogSumExpFixer T1 → outcome B' * LogSumExpFixer T2 → Prop)
    m1 m2 (k1 : A → M T1 A') (k2 : B → M T2 B') s1 s2 :
  same_structure R (graph s1) (graph s2) →
  reads P m1 m2 →
  (∀ e, Post (Raise e, s1) (Raise e, s2)) →
  (∀ a b, P a b → Post (k1 a s1) (k2 b s2)) →
  Post (bind m1 k1 s1) (bind m2 k2 s2).
Proof.
  intros Hs Hm He Hk. destruct (Hm s1 s2 Hs) as (H1 & H2 & Ho).
  unfold bind.
  destruct (m1 s1) as [[a|e1] s1'], (m2 s2) as [[b|e2] s2'];
    simpl in *; subst; try done.
  by apply Hk.
Qed.

Lemma same_node_mono R' nd1 nd2 :
  R ⊆ R' → same_node R nd1 nd2 → same_node R' nd1 nd2.
Proof.
  intros Hsub [Hk Hi]. split; [done|].
  eapply Forall2_impl; [exact Hi|]. intros i1 i2. apply Hsub.
Qed.

Lemma same_structure_add g1 g2 acc1 acc2 :
  same_structure R g1 g2 →
  Forall2 (λ i1 i2, (i1, i2) ∈ R) acc1 acc2 →
  same_structure ((fresh (dom g1), fresh (dom g2)) :: R)
    (<[fresh (dom g1) := {| bn.kind := bn.LogSumExpNode; bn.inputs := acc1 |}]> g1)
    (<[fresh (dom g2) := {| bn.kind := bn.LogSumExpNode; bn.inputs := acc2 |}]> g2).
Proof.
  intros Hs Hacc.
  assert (Hsub : R ⊆ (fresh (dom g1), fresh (dom g2)) :: R).
  { intros p Hp. by right. }
  apply Forall_cons. split.
  - unfold same_at. simpl. rewrite !lookup_insert_eq.
    apply (same_node_mono _ _ _ Hsub). by split.
  - unfold same_structure in Hs. eapply Forall_impl; [exact Hs|].
    intros [x y]. unfold same_at. simpl.
    destruct (g1 !! x) as [nd1|] eqn:Hx; [|done].
    destruct (g2 !! y) as [nd2|] eqn:Hy; [|done].
    pose proof (fresh_unused g1). pose proof (fresh_unused g2).
    rewrite !lookup_insert_ne by congruence.
    rewrite Hx, Hy. by apply same_node_mono.
Qed.

(** C8: take two fixers, whatever their type oracles, over graphs of the
    same structure along [R]: the same kinds up to the values of constants,
    the same inputs in the same order.  On corresponding nodes
    [_needs_fixing] gives the same outcome, and [_get_replacement] either
    raises the same exception on both sides, or returns on both sides a
    node; then the two graphs, the two replacements included, again have
    the same structure, and neither oracle has changed. *)
Theorem fixer_is_structural (s1 : LogSumExpFixer T1) (s2 : LogSumExpFixer T2) n1 n2 :
  same_structure R (graph s1) (graph s2) →
  (n1, n2) ∈ R →
  same_outcome eq (_needs_fixing n1 s1).1 (_needs_fixing n2 s2).1
  ∧ match _get_replacement n1 s1, _get_replacement n2 s2 with
    | (Ok (Some r1), s1'), (Ok (Some r2), s2') =>
        same_structure ((r1, r2) :: R) (graph s1') (graph s2')
        ∧ _typer s1' = _typer s1 ∧ _typer s2' = _typer s2
    | (Raise e1, s1'), (Raise e2, s2') => e1 = e2 ∧ s1' = s1 ∧ s2' = s2
    | _, _ => False
    end.
Proof.
  intros Hs Hn. split.
  { by destruct (reads_needs_fixing n1 n2 Hn s1 s2 Hs) as (_ & _ & ?). }
  unfold _get_replacement.
  eapply reads_then; [done| |done|].
  { by apply reads_isinstance; [apply is_LogNode_structural|]. }
  intros b ? <-.
  eapply reads_then; [done|apply reads_assert|done|]. intros _ _ _.
  eapply reads_then; [done|by apply reads_can_be_log_sum_exp|done|].
  intros b' ? <-.
  eapply reads_then; [done|apply reads_assert|done|]. intros _ _ _.
  eapply reads_then; [done|by apply reads_operand|done|]. intros o1 o2 Ho.
  eapply reads_then; [done|by apply reads_inputs|done|]. intros l1 l2 Hl.
  eapply reads_then; [done|by apply reads_collect_operands|done|].
  intros acc1 acc2 Hacc.
  eapply reads_then; [done|by apply reads_operand|done|]. intros o1' o2' Ho'.
  eapply reads_then; [done|by apply reads_inputs|done|]. intros l1' l2' Hl'.
  rewrite (Forall2_length _ _ _ Hacc), (Forall2_length _ _ _ Hl').
  eapply reads_then; [done|apply reads_assert|done|]. intros _ _ _.
  unfold bind, add_logsumexp, ret. simpl.
  split; [|done]. by apply same_structure_add.
Qed.

End Structural.

(** ** The proposer cache of single-site inference *)

Section SingleSiteProofs.

Context `{Countable RVIdentifier} {SimpleWorld Kwargs : Type}.

Local Abbreviation State := (State RVIdentifier Kwargs).
Local Abbreviation call := (@call RVIdentifier _ _ SimpleWorld Kwargs).
Implicit Types (st : State) (l : list RVIdentifier).
Implicit Types (out proposers : list proposer_ref).

Lemma memo_inv_init (kw : Kwargs) : memo_inv (__init__ kw : State).
Proof. split; [intros rv p | intros p obj]; simpl; by rewrite ?lookup_empty. Qed.

Lemma memo_inv_construct st rv :
  memo_inv st → _proposers (self st) !! rv = None →
  memo_inv (set_proposer rv (length (created st))
              (proposer_class rv (inference_args (self st)) st).2).
Proof.
  intros [Hdict Hobj] Hnone. split; simpl.
  - intros rv' p. rewrite lookup_insert. case_decide as Hrv.
    + intros [= <-]. subst rv'. eexists.
      split; [by apply list_lookup_middle | done].
    + intros (obj & Hp & Hnode)%Hdict. exists obj. split; [|done].
      by apply lookup_app_l_Some.
  - intros p obj Hp. apply lookup_app_Some in Hp as [Hp|[Hlen Hp]].
    + pose proof (Hobj _ _ Hp) as Hin.
      rewrite lookup_insert_ne; [done|]. intros ->. congruence.
    + apply list_lookup_singleton_Some in Hp as [Hp <-]. simpl.
      rewrite lookup_insert_eq. f_equal. lia.
Qed.

Lemma for_node_in_spec l proposers st :
  memo_inv st →
  ∃ out st',
    for_node_in l proposers st = (Ok (proposers ++ out), st')
    ∧ memo_inv st'
    ∧ _proposers (self st) ⊆ _proposers (self st')
    ∧ Forall2 (λ rv p, _proposers (self st') !! rv = Some p) l out.
Proof.
  revert proposers st.
  induction l as [|rv l IH]; intros proposers st Hinv; simpl.
  { exists [], st. by rewrite app_nil_r. }
  destruct (_proposers (self st) !! rv) as [p|] eqn:Hrv.
  - rewrite Hrv.
    destruct (IH (proposers ++ [p]) st Hinv) as (out & st' & Hrun & Hinv' & Hsub & Hout).
    exists (p :: out), st'. rewrite Hrun, <- app_assoc.
    split; [done|]. split; [done|]. split; [done|].
    constructor; [|done]. by eapply lookup_weaken.
  - pose proof (memo_inv_construct st rv Hinv Hrv) as Hinv1.
    set (st1 := set_proposer rv _ _) in *.
    destruct (IH (proposers ++ [length (created st)]) st1 Hinv1)
      as (out & st' & Hrun & Hinv' & Hsub & Hout).
    exists (length (created st) :: out), st'.
    rewrite <- app_assoc in Hrun.
    split; [simpl; rewrite lookup_insert_eq; exact Hrun|].
    split; [done|].
    assert (Hsub1 : _proposers (self st) ⊆ _proposers (self st1)).
    { by apply insert_subseteq. }
    split; [by etrans|].
    constructor; [|done].
    eapply lookup_weaken; [|exact Hsub]. apply lookup_insert_eq.
Qed.

Lemma get_proposers_spec (world : SimpleWorld) l n st :
  memo_inv st →
  ∃ out st',
    get_proposers world l n st = (Ok out, st')
    ∧ memo_inv st'
    ∧ _proposers (self st) ⊆ _proposers (self st')
    ∧ Forall2 (λ rv p, _proposers (self st') !! rv = Some p) l out.
Proof. intros Hinv. apply (for_node_in_spec l [] st Hinv). Qed.

Lemma call_memo_inv st st' :
  memo_inv st → call st st' →
  memo_inv st' ∧ _proposers (self st) ⊆ _proposers (self st').
Proof.
  intros Hinv (world & l & n & out & Hrun).
  destruct (get_proposers_spec world l n st Hinv) as (out' & st1 & Hrun' & ? & ? & _).
  rewrite Hrun in Hrun'. by simplify_eq.
Qed.

Lemma calls_memo_inv st st' :
  rtc call st st' → memo_inv st →
  memo_inv st' ∧ _proposers (self st) ⊆ _proposers (self st').
Proof.
  induction 1 as [st|st st1 st' Hcall _ IH]; intros Hinv; [done|].
  destruct (call_memo_inv _ _ Hinv Hcall) as [Hinv1 Hsub1].
  destruct (IH Hinv1) as [Hinv' Hsub']. split; [done | by etrans].
Qed.

Lemma memo_inv_NoDup st : memo_inv st → NoDup (node <$> created st).
Proof.
  intros [_ Hobj]. apply NoDup_alt. intros i j rv.
  rewrite !list_lookup_fmap.
  destruct (created st !! i) as [oi|] eqn:Hi; [|done].
  destruct (created st !! j) as [oj|] eqn:Hj; [|done].
  simpl. intros [= Hoi] [= Hoj].
  pose proof (Hobj _ _ Hi) as Hpi. pose proof (Hobj _ _ Hj) as Hpj.
  congruence.
Qed.

(** C10: in every state the inference object can be in after any number of
    calls, [get_proposers] returns, with one proposer per element of
    [target_rvs], in order, each an object constructed for that random
    variable; distinct variables get distinct proposers.  No random variable
    has had two proposers constructed for it, over all the calls so far.
    The same random variable gets the same proposer object, within the call
    and in every later call. *)
Theorem get_proposers_memoizes (kw : Kwargs) st (world : SimpleWorld) l n :
  rtc call (__init__ kw : State) st →
  ∃ out st',
    get_proposers world l n st = (Ok out, st')
    ∧ Forall2 (λ rv p, ∃ obj, created st' !! p = Some obj ∧ node obj = rv) l out
    ∧ (NoDup l → NoDup out)
    ∧ NoDup (node <$> created st')
    ∧ (∀ i j rv, l !! i = Some rv → l !! j = Some rv →
         ∃ p, out !! i = Some p ∧ out !! j = Some p)
    ∧ (∀ st'' (world2 : SimpleWorld) l2 n2 out2 st3,
         rtc call st' st'' →
         get_proposers world2 l2 n2 st'' = (Ok out2, st3) →
         ∀ i j rv, l !! i = Some rv → l2 !! j = Some rv →
           ∃ p, out !! i = Some p ∧ out2 !! j = Some p).
Proof.
  intros Hreach.
  destruct (calls_memo_inv _ _ Hreach (memo_inv_init kw)) as [Hinv _].
  destruct (get_proposers_spec world l n st Hinv)
    as (out & st' & Hrun & Hinv' & Hsub & Hout).
  exists out, st'. split; [done|].
  assert (Hobjs : Forall2 (λ rv p, ∃ obj, created st' !! p = Some obj
                                         ∧ node obj = rv) l out).
  { eapply Forall2_impl; [exact Hout|]. intros rv p. apply Hinv'. }
  split; [done|].
  split.
  { intros Hl. apply NoDup_alt. intros i j p Hi Hj.
    destruct (Forall2_lookup_r _ _ _ _ _ Hobjs Hi) as (rvi & Hrvi & oi & Hoi & Hni).
    destruct (Forall2_lookup_r _ _ _ _ _ Hobjs Hj) as (rvj & Hrvj & oj & Hoj & Hnj).
    eapply NoDup_alt; [exact Hl|exact Hrvi|]. congruence. }
  split; [by apply memo_inv_NoDup|].
  split.
  { intros i j rv Hi Hj.
    destruct (Forall2_lookup_l _ _ _ _ _ Hout Hi) as (p & Hp & Hdict).
    destruct (Forall2_lookup_l _ _ _ _ _ Hout Hj) as (p' & Hp' & Hdict').
    exists p. split; [done|]. congruence. }
  intros st'' world2 l2 n2 out2 st3 Hlater Hrun2 i j rv Hi Hj.
  destruct (calls_memo_inv _ _ Hlater Hinv') as [Hinv'' Hsub''].
  destruct (get_proposers_spec world2 l2 n2 st'' Hinv'')
    as (out2' & st3' & Hrun2' & _ & Hsub3 & Hout2).
  rewrite Hrun2 in Hrun2'. simplify_eq.
  destruct (Forall2_lookup_l _ _ _ _ _ Hout Hi) as (p & Hp & Hdict).
  destruct (Forall2_lookup_l _ _ _ _ _ Hout2 Hj) as (p2 & Hp2 & Hdict2).
  exists p. split; [done|].
  rewrite Hp2. f_equal.
  eapply lookup_weaken in Hdict; [|exact Hsub''].
  eapply lookup_weaken in Hdict; [|exact Hsub3].
  congruence.
Qed.

End SingleSiteProofs.

(** ** The theorems at work on the sample graphs *)

Ltac by_computation := apply (bool_decide_unpack _); vm_compute; reflexivity.

Lemma needs_fixing_iff_pattern_witness :
  wf_graph flat_graph ∧ is_Some (flat_graph !! 7)
  ∧ ∃ b, _needs_fixing 7 (fixer_on flat_graph) = (Ok b, fixer_on flat_graph)
         ∧ (b = true ↔ ∃ o l, log_of_sum_of_exps flat_graph 7 o l).
Proof.
  assert (Hwf : wf_graph flat_graph).
  { apply (bool_decide_unpack _). vm_compute. reflexivity. }
  assert (Hn : is_Some (flat_graph !! 7)).
  { vm_compute. eauto. }
  split; [exact Hwf|]. split; [exact Hn|].
  exact (needs_fixing_iff_pattern (fixer_on flat_graph) 7 Hwf Hn).
Defined.

Lemma get_replacement_is_logsumexp_witness :
  wf_graph flat_graph
  ∧ (_needs_fixing 7 (fixer_on flat_graph)).1 = Ok true
  ∧ ∃ r s', _get_replacement 7 (fixer_on flat_graph) = (Ok (Some r), s')
            ∧ kind_of (nodes (_bmg s')) r = Some bn.LogSumExpNode
            ∧ inputs_of (nodes (_bmg s')) r = Some [0; 1; 2].
Proof.
  assert (Hwf : wf_graph flat_graph) by by_computation.
  assert (Hfix : (_needs_fixing 7 (fixer_on flat_graph)).1 = Ok true).
  { vm_compute. reflexivity. }
  split; [exact Hwf|]. split; [exact Hfix|].
  destruct (get_replacement_is_logsumexp (fixer_on flat_graph) 7 Hwf Hfix)
    as (o & l & ops & r & s' & Hpat & Hrun & _ & _ & Hk & Hi & _ & _ & H3).
  exists r, s'. split; [exact Hrun|]. split; [exact Hk|].
  rewrite Hi. f_equal.
  destruct Hpat as (_ & Hon & Ho & _).
  vm_compute in Hon. injection Hon as <-.
  vm_compute in Ho. injection Ho as <-.
  apply (H3 3 4 5 0 1 2); reflexivity.
Defined.

Lemma get_replacement_agrees_with_needs_fixing_witness :
  wf_graph flat_graph
  ∧ (∃ r s', _get_replacement 7 (fixer_on flat_graph) = (Ok (Some r), s'))
  ∧ _get_replacement 6 (fixer_on flat_graph)
    = (Raise AssertionError, fixer_on flat_graph).
Proof.
  assert (Hwf : wf_graph flat_graph) by by_computation.
  split; [exact Hwf|]. split.
  - apply (get_replacement_agrees_with_needs_fixing (fixer_on flat_graph) 7 Hwf).
    vm_compute. reflexivity.
  - apply (get_replacement_agrees_with_needs_fixing (fixer_on flat_graph) 6 Hwf).
    vm_compute. reflexivity.
Defined.

Lemma replacement_needs_no_fixing_witness :
  let s := fixer_on flat_graph in
  let s' := (run ascending_order rewire_and_drop 5 0 s).2 in
  run ascending_order rewire_and_drop 5 0 s = (Ok 1, s')
  ∧ run ascending_order rewire_and_drop 5 0 s' = (Ok 0, s')
  ∧ wf_graph flat_graph
  ∧ (_needs_fixing 7 s).1 = Ok true
  ∧ ∃ r s1, _get_replacement 7 s = (Ok (Some r), s1)
            ∧ _needs_fixing r s1 = (Ok false, s1)
            ∧ (_needs_fixing 7 s1).1 = Ok true.
Proof.
  intros s s'.
  destruct (replacement_needs_no_fixing (LatticeTyper := unit)
              ascending_order rewire_and_drop) as [Hengine Hfixer].
  assert (Hrun : run ascending_order rewire_and_drop 5 0 s = (Ok 1, s')).
  { vm_compute. reflexivity. }
  assert (Hwf : wf_graph flat_graph) by by_computation.
  assert (Hfix : (_needs_fixing 7 s).1 = Ok true).
  { vm_compute. reflexivity. }
  split; [exact Hrun|].
  split; [exact (proj2 (Hengine 5 s 1 s' Hrun) 4)|].
  split; [exact Hwf|]. split; [exact Hfix|].
  destruct (Hfixer s 7 Hwf Hfix) as (r & s1 & Hget & _ & _ & Hr & _ & Hold).
  exists r, s1. split; [exact Hget|]. split; [exact Hr|].
  rewrite Hold; [exact Hfix|]. vm_compute. eauto.
Defined.

Lemma replacement_preserves_sharing_witness :
  wf_graph shared_graph
  ∧ (_needs_fixing 7 (fixer_on shared_graph)).1 = Ok true
  ∧ ∃ r s', _get_replacement 7 (fixer_on shared_graph) = (Ok (Some r), s')
            ∧ 8 ∈ consumers_of (nodes (_bmg s')) 3
            ∧ nodes (_bmg s') !! 8 = Some (mk (bn.OtherNode 7) [3])
            ∧ consumers_of (nodes (_bmg s')) 0 = {[3]} ∪ {[r]}.
Proof.
  assert (Hwf : wf_graph shared_graph) by by_computation.
  assert (Hfix : (_needs_fixing 7 (fixer_on shared_graph)).1 = Ok true).
  { vm_compute. reflexivity. }
  split; [exact Hwf|]. split; [exact Hfix|].
  destruct (replacement_preserves_sharing (fixer_on shared_graph) 7 Hwf Hfix)
    as (o & l & ops & r & s' & Hpat & Hops & Hrun & _ & Hframe & Hcons & Hop).
  destruct Hpat as (_ & Hon & Ho & _).
  vm_compute in Hon. injection Hon as <-.
  vm_compute in Ho. injection Ho as <-.
  apply Forall2_cons_inv_l in Hops as (a & ops' & [_ Ha] & _ & ->).
  vm_compute in Ha. injection Ha as <-.
  exists r, s'. split; [exact Hrun|].
  split.
  { apply (Hcons 3 8); [by left | by_computation]. }
  split.
  { apply Hframe. vm_compute. reflexivity. }
  destruct (Hop 0) as (_ & _ & _ & ->); [by left|].
  f_equal.
Defined.

Lemma chain_form_is_left_alone_witness :
  add_chain chain_graph 7 [7; 5; 6; 3; 4]
  ∧ Forall (λ m, _needs_fixing m (fixer_on chain_graph)
                 = (Ok false, fixer_on chain_graph)) [8; 7; 5; 6; 3; 4]
  ∧ add_chain pair_chain_graph 4 [4; 2; 3]
  ∧ Forall (λ m, _needs_fixing m (fixer_on pair_chain_graph)
                 = (Ok false, fixer_on pair_chain_graph)) [5; 4; 2; 3].
Proof.
  assert (Hlong : add_chain chain_graph 7 [7; 5; 6; 3; 4]).
  { apply (add_chain_more _ 7 6 5); [vm_compute; reflexivity| |vm_compute; reflexivity].
    apply add_chain_two; vm_compute; reflexivity. }
  assert (Hshort : add_chain pair_chain_graph 4 [4; 2; 3]).
  { apply add_chain_two; vm_compute; reflexivity. }
  split; [exact Hlong|]. split.
  { apply (chain_form_is_left_alone (fixer_on chain_graph) 8 7);
      [vm_compute; reflexivity..|exact Hlong]. }
  split; [exact Hshort|].
  apply (chain_form_is_left_alone (fixer_on pair_chain_graph) 5 4);
    [vm_compute; reflexivity..|exact Hshort].
Defined.

Lemma non_exp_input_is_left_alone_witness :
  wf_graph mixed_graph
  ∧ mixed_graph !! 3 = Some (mk bn.MultiAdditionNode [1; 2])
  ∧ kind_of mixed_graph 1 = Some bn.ExpNode
  ∧ kind_of mixed_graph 2 = Some (bn.ConstantNode 5)
  ∧ _needs_fixing 4 (fixer_on mixed_graph) = (Ok false, fixer_on mixed_graph).
Proof.
  assert (Hwf : wf_graph mixed_graph) by by_computation.
  split; [exact Hwf|].
  split; [vm_compute; reflexivity|].
  split; [vm_compute; reflexivity|].
  split; [vm_compute; reflexivity|].
  apply (non_exp_input_is_left_alone (fixer_on mixed_graph) 4 3 [1; 2] 2
           (bn.ConstantNode 5) Hwf); try (vm_compute; reflexivity).
  - by right; left.
  - discriminate.
Defined.

Lemma empty_sum_is_fixed_witness :
  _needs_fixing 1 (fixer_on empty_sum_graph) = (Ok true, fixer_on empty_sum_graph)
  ∧ ∃ r, empty_sum_graph !! r = None
         ∧ _get_replacement 1 (fixer_on empty_sum_graph) =
             (Ok (Some r),
              with_node (fixer_on empty_sum_graph) r (mk bn.LogSumExpNode [])).
Proof.
  apply (empty_sum_is_fixed (fixer_on empty_sum_graph) 1 0);
    vm_compute; reflexivity.
Defined.

Lemma fixer_is_structural_witness :
  let s1 := fixer_on (const_sum_graph 0 1 2) in
  let s2 := {| _bmg := {| nodes := const_sum_graph 10 3 4 |}; _typer := true |} in
  same_structure (shifted 10) (nodes (_bmg s1)) (nodes (_bmg s2))
  ∧ (5, 15) ∈ shifted 10
  ∧ same_outcome eq (_needs_fixing 5 s1).1 (_needs_fixing 15 s2).1
  ∧ match _get_replacement 5 s1, _get_replacement 15 s2 with
    | (Ok (Some r1), s1'), (Ok (Some r2), s2') =>
        same_structure ((r1, r2) :: shifted 10)
          (nodes (_bmg s1')) (nodes (_bmg s2'))
        ∧ _typer s1' = _typer s1 ∧ _typer s2' = _typer s2
    | (Raise e1, s1'), (Raise e2, s2') => e1 = e2 ∧ s1' = s1 ∧ s2' = s2
    | _, _ => False
    end.
Proof.
  intros s1 s2.
  assert (Hs : same_structure (shifted 10) (nodes (_bmg s1)) (nodes (_bmg s2)))
    by by_computation.
  assert (Hn : (5, 15) ∈ shifted 10) by by_computation.
  split; [exact Hs|]. split; [exact Hn|].
  exact (fixer_is_structural (shifted 10) s1 s2 5 15 Hs Hn).
Defined.

Lemma get_proposers_memoizes_witness :
  let st0 : State nat unit := __init__ () in
  let st1 := (get_proposers () [2; 3] 0 st0).2 in
  rtc (call (SimpleWorld := unit)) st0 st1
  ∧ ∃ st', get_proposers () [1; 2; 1] 0 st1 = (Ok [2; 0; 2], st')
           ∧ NoDup (node <$> created st').
Proof.
  intros st0 st1.
  assert (Hreach : rtc (call (SimpleWorld := unit)) st0 st1).
  { apply rtc_once. exists (), [2; 3], 0%Z, [0; 1]. vm_compute. reflexivity. }
  split; [exact Hreach|].
  destruct (get_proposers_memoizes () st1 () [1; 2; 1] 0 Hreach)
    as (out & st' & Hrun & _ & _ & Hnodup & _).
  exists st'. split; [|exact Hnodup].
  rewrite Hrun. f_equal. f_equal.
  vm_compute in Hrun. by injection Hrun as <- _.
Defined.

(** ** More on the methods of the fixer *)

Section FixerMore.

Context {LatticeTyper : Type}.
Implicit Types (s : LogSumExpFixer LatticeTyper) (n o c r : node_ref).
Implicit Types (g : gmap node_ref bn.BMGNode) (l acc ops : list node_ref).

Local Abbreviation graph s := (nodes (_bmg s)).

Lemma bind_reads_Raise {A B} (m : M LatticeTyper A) (k : A → M LatticeTyper B)
    s e s' :
  (m s).2 = s → bind m k s = (Raise e, s') →
  ((m s).1 = Raise e ∧ s' = s) ∨ ∃ a, (m s).1 = Ok a ∧ k a s = (Raise e, s').
Proof.
  unfold bind. destruct (m s) as [[a|e1] s1]; simpl; intros ->.
  - right. eauto.
  - intros [= -> ->]. by left.
Qed.

Lemma assert_Ok b (u : unit) s : (assert b s).1 = Ok u → b = true.
Proof. by destruct b. Qed.

(** The loop, when it returns, has met Exp nodes only and has appended their
    operands. *)
Lemma collect_operands_Ok l acc acc' s s' :
  collect_operands l acc s = (Ok acc', s') →
  s' = s ∧ ∃ ops, acc' = acc ++ ops ∧ exp_operands (graph s) l ops.
Proof.
  revert acc. induction l as [|c l IH]; intros acc; simpl.
  { intros [= <- <-]. split; [done|]. exists []. rewrite app_nil_r.
    split; [done | constructor]. }
  intros Hrun.
  apply bind_reads_Ok in Hrun as (b & Hb & Hrun); [|apply isinstance_state].
  apply bind_reads_Ok in Hrun as (u & Hu & Hrun); [|apply assert_state].
  apply assert_Ok in Hu as ->.
  apply bind_reads_Ok in Hrun as (a & Ha & Hrun); [|apply operand_state].
  apply IH in Hrun as (-> & ops & -> & Hops).
  split; [done|]. exists (a :: ops). split; [by rewrite <- app_assoc|].
  constructor; [|done]. split.
  - rewrite isinstance_run in Hb. simpl in Hb.
    destruct (kind_of (graph s) c) as [k|]; [|done].
    injection Hb as Hb. by apply is_ExpNode_true in Hb as ->.
  - rewrite operand_run in Ha. simpl in Ha. unfold operand_of.
    destruct (graph s !! c) as [nd|]; [|done]. simpl.
    destruct (bn.inputs nd !! 0); by simplify_eq.
Qed.

(** What a returning [_get_replacement] has seen and done. *)
Lemma _get_replacement_Ok n s x s' :
  _get_replacement n s = (Ok x, s') →
  ∃ o l ops,
    log_of_sum_of_exps (graph s) n o l
    ∧ exp_operands (graph s) l ops
    ∧ x = Some (fresh (dom (graph s)))
    ∧ s' = with_node s (fresh (dom (graph s)))
             {| bn.kind := bn.LogSumExpNode; bn.inputs := ops |}.
Proof.
  intros Hrun. pose proof Hrun as Hrun0. unfold _get_replacement in Hrun.
  apply bind_reads_Ok in Hrun as (b & Hb & Hrun); [|apply isinstance_state].
  apply bind_reads_Ok in Hrun as (u & Hu & Hrun); [|apply assert_state].
  apply assert_Ok in Hu as ->.
  apply bind_reads_Ok in Hrun as (b' & Hb' & Hrun);
    [|apply can_be_log_sum_exp_state].
  apply bind_reads_Ok in Hrun as (u' & Hu' & Hrun); [|apply assert_state].
  apply assert_Ok in Hu' as ->.
  apply can_be_log_sum_exp_true in Hb' as (o & l & Hon & Ho & Hl).
  assert (Hn : kind_of (graph s) n = Some bn.LogNode).
  { rewrite isinstance_run in Hb. simpl in Hb.
    destruct (kind_of (graph s) n) as [k|]; [|done].
    injection Hb as Hb. by apply is_LogNode_true in Hb as ->. }
  rewrite bind_run, (operand_Some _ _ _ Hon) in Hrun.
  rewrite bind_run, inputs_run in Hrun. unfold inputs_of in Hrun.
  rewrite Ho in Hrun. simpl in Hrun.
  apply bind_reads_Ok in Hrun as (acc & Hacc & _);
    [|apply collect_operands_state].
  pose proof (collect_operands_state l [] s) as Hst.
  destruct (collect_operands l [] s) as [y s1] eqn:Hloop.
  simpl in Hacc, Hst. subst y s1.
  apply collect_operands_Ok in Hloop as (_ & ops & -> & Hops).
  exists o, l, ops. split; [done|]. split; [done|].
  rewrite (_get_replacement_run n o l ops) in Hrun0 by done.
  by injection Hrun0 as <- <-.
Qed.

(** Whatever [_get_replacement] raises, it raises before the graph builder
    is called. *)
Lemma _get_replacement_Raise n s e s' :
  _get_replacement n s = (Raise e, s') → s' = s.
Proof.
  unfold _get_replacement. intros Hrun.
  repeat match type of Hrun with
  | bind ?m _ _ = _ =>
      let Hst := fresh "Hst" in
      assert (Hst : (m s).2 = s) by
        first [ apply isinstance_state | apply assert_state
              | apply can_be_log_sum_exp_state | apply operand_state
              | apply inputs_state | apply collect_operands_state ];
      apply (bind_reads_Raise _ _ _ _ _ Hst) in Hrun
        as [[_ ->]|(? & _ & Hrun)]; [done|]; clear Hst
  end.
  by unfold bind, add_logsumexp, ret in Hrun.
Qed.

(** X1: [_is_exp_input] leaves the fixer as it was and, on a node of a
    well-formed graph, returns a boolean, true exactly when every input of the
    node is an Exp node, whatever the kind of the node itself; so it is true
    of every node without inputs. *)
Theorem is_exp_input_iff_all_exp s o :
  wf_graph (graph s) → is_Some (graph s !! o) →
  ∃ b, _is_exp_input o s = (Ok b, s)
       ∧ (b = true ↔
          ∃ l, inputs_of (graph s) o = Some l
               ∧ Forall (λ c, kind_of (graph s) c = Some bn.ExpNode) l)
       ∧ (inputs_of (graph s) o = Some [] → b = true).
Proof.
  intros Hwf [nd Ho].
  assert (Htot : ∃ b, (_is_exp_input o s).1 = Ok b).
  { unfold _is_exp_input. rewrite bind_run, inputs_run.
    unfold inputs_of. rewrite Ho. simpl.
    apply all_isinstance_total. by destruct (Hwf _ _ Ho). }
  destruct Htot as [b Hb]. exists b.
  split; [apply pair_eq; [done | apply _is_exp_input_state]|].
  assert (Hiff : b = true ↔
            ∃ l, inputs_of (graph s) o = Some l
                 ∧ Forall (λ c, kind_of (graph s) c = Some bn.ExpNode) l).
  { rewrite <- _is_exp_input_true, Hb. naive_solver. }
  split; [done|]. intros Hempty. apply Hiff. eauto.
Qed.

(** X2: [can_be_log_sum_exp] does not check that its argument is a Log
    node.  On a unary operator node of a well-formed graph, Log or Exp, it
    leaves the fixer as it was and returns true exactly when the operand of
    the node is a MultiAdd node over Exp nodes; so it is true of an Exp node
    over such a sum, of which [_needs_fixing] is false. *)
Theorem can_be_log_sum_exp_ignores_kind s n k :
  wf_graph (graph s) →
  kind_of (graph s) n = Some k →
  bn.unary k = true →
  ∃ b, can_be_log_sum_exp n s = (Ok b, s)
       ∧ (b = true ↔
          ∃ o l, operand_of (graph s) n = Some o
                 ∧ graph s !! o = Some {| bn.kind := bn.MultiAdditionNode;
                                          bn.inputs := l |}
                 ∧ Forall (λ c, kind_of (graph s) c = Some bn.ExpNode) l)
       ∧ (k ≠ bn.LogNode → _needs_fixing n s = (Ok false, s)).
Proof.
  intros Hwf Hk Hunary.
  assert (Hn : ∃ nd o, graph s !! n = Some nd ∧ bn.kind nd = k
                       ∧ bn.inputs nd !! 0 = Some o).
  { unfold kind_of in Hk. destruct (graph s !! n) as [nd|] eqn:Hn; [|done].
    injection Hk as Hk. destruct (Hwf _ _ Hn) as [_ Har].
    rewrite Hk in Har. specialize (Har Hunary).
    destruct (bn.inputs nd) as [|o ?] eqn:Hi; [done|].
    exists nd, o. by rewrite Hi. }
  destruct Hn as (nd & o & Hn & Hkind & Hi).
  assert (Hon : operand_of (graph s) n = Some o).
  { unfold operand_of. by rewrite Hn. }
  assert (Htot : ∃ b, (can_be_log_sum_exp n s).1 = Ok b).
  { unfold can_be_log_sum_exp. rewrite bind_run, (operand_Some _ _ _ Hon).
    destruct (Hwf _ _ Hn) as [Hin _]. rewrite Forall_forall in Hin.
    destruct (Hin o) as [ndo Ho]; [apply list_elem_of_lookup; eauto|].
    rewrite bind_run, isinstance_run. unfold kind_of. rewrite Ho. simpl.
    destruct (bn.is_MultiAdditionNode (bn.kind ndo)); [|by eexists].
    unfold _is_exp_input. rewrite bind_run, inputs_run.
    unfold inputs_of. rewrite Ho. simpl.
    apply all_isinstance_total. by destruct (Hwf _ _ Ho). }
  destruct Htot as [b Hb]. exists b.
  split; [apply pair_eq; [done | apply can_be_log_sum_exp_state]|].
  split.
  - rewrite <- can_be_log_sum_exp_true, Hb. naive_solver.
  - intros Hne. apply (needs_fixing_not_log _ _ k); [done|].
    by destruct k.
Qed.

(** X3: the loop of [_get_replacement] returns exactly when every node of
    the list is an Exp node with an operand; it then leaves the fixer as it
    was and has appended those operands to [acc], one for each node and in
    the order of the list, so the count compared after the loop always
    agrees. *)
Theorem collect_operands_one_per_input l acc acc' s s' :
  (collect_operands l acc s = (Ok acc', s')
   ↔ s' = s ∧ ∃ ops, acc' = acc ++ ops ∧ exp_operands (graph s) l ops)
  ∧ (collect_operands l acc s = (Ok acc', s') →
     length acc' = length acc + length l).
Proof.
  split; [split|].
  - apply collect_operands_Ok.
  - intros (-> & ops & -> & Hops). by apply collect_operands_run.
  - intros (_ & ops & -> & Hops)%collect_operands_Ok.
    rewrite length_app. f_equal. symmetry. eapply Forall2_length, Hops.
Qed.

(** X4: [_get_replacement] returns only for a node of which
    [_needs_fixing] is true.  What it returns, and the fixer after it, are
    those of one call of [add_logsumexp] on the fixer as it was before, with
    the list [acc] of the operands of the Exp nodes, in the order of the
    inputs of the MultiAdd node. *)
Theorem get_replacement_returns_only_when_needed s n x s' :
  _get_replacement n s = (Ok x, s') →
  _needs_fixing n s = (Ok true, s)
  ∧ ∃ o l acc r,
      log_of_sum_of_exps (graph s) n o l
      ∧ exp_operands (graph s) l acc
      ∧ add_logsumexp acc s = (Ok r, s')
      ∧ x = Some r.
Proof.
  intros Hrun.
  apply _get_replacement_Ok in Hrun as (o & l & ops & Hpat & Hops & -> & ->).
  split.
  - apply pair_eq; [|apply _needs_fixing_state].
    apply _needs_fixing_true. eauto.
  - by exists o, l, ops, (fresh (dom (graph s))).
Qed.

(** X5: when [_get_replacement] raises, the fixer is what it was before the
    call.  On a node of a well-formed graph the only exception is the
    failed assertion, and it is raised exactly because [_needs_fixing] is
    false of the node. *)
Theorem get_replacement_failure_leaves_fixer s n e s' :
  _get_replacement n s = (Raise e, s') →
  s' = s
  ∧ (wf_graph (graph s) → is_Some (graph s !! n) →
     e = AssertionError ∧ _needs_fixing n s = (Ok false, s)).
Proof.
  intros Hrun. pose proof (_get_replacement_Raise _ _ _ _ Hrun) as ->.
  split; [done|]. intros Hwf Hn.
  destruct (_needs_fixing_total n s Hwf Hn) as [b Hb].
  destruct b.
  - apply _needs_fixing_true in Hb as (o & l & Hpat).
    destruct (exp_operands_exist _ l Hwf) as [ops Hops].
    { by destruct Hpat as (_ & _ & _ & ?). }
    by rewrite (_get_replacement_run n o l ops) in Hrun.
  - rewrite (_get_replacement_rejects _ _ Hb) in Hrun.
    injection Hrun as <-. split; [done|].
    apply pair_eq; [done | apply _needs_fixing_state].
Qed.

(** X6: [_get_replacement] keeps the graph well-formed: when it returns,
    every reference held by a node, those of the new node included, still
    points into the graph, and the unary operators still have their single
    operand. *)
Theorem get_replacement_keeps_graph_well_formed s n x s' :
  wf_graph (graph s) →
  _get_replacement n s = (Ok x, s') →
  wf_graph (graph s').
Proof.
  intros Hwf Hrun.
  apply _get_replacement_Ok in Hrun as (o & l & ops & Hpat & Hops & -> & ->).
  pose proof (fresh_unused (graph s)) as Hr.
  set (r := fresh (dom (graph s))) in *.
  assert (Hkeep : ∀ i, is_Some (graph s !! i) →
            is_Some (<[r := {| bn.kind := bn.LogSumExpNode;
                               bn.inputs := ops |}]> (graph s) !! i)).
  { intros i [nd Hi]. exists nd. rewrite lookup_insert_ne; [done|]. congruence. }
  simpl. apply map_Forall_insert; [done|]. split.
  - split; [|done]. simpl. apply Forall_forall. intros a Ha.
    apply Hkeep. by eapply exp_operands_allocated.
  - intros i nd Hi. destruct (Hwf _ _ Hi) as [Hin Har].
    split; [|done]. eapply Forall_impl; [exact Hin|]. apply Hkeep.
Qed.

(** X7: adding nodes to a well-formed graph changes the answer of
    [_needs_fixing] for none of the nodes it had, whatever is added. *)
Theorem needs_fixing_unchanged_by_new_nodes s s' m :
  wf_graph (graph s) →
  graph s ⊆ graph s' →
  is_Some (graph s !! m) →
  (_needs_fixing m s').1 = (_needs_fixing m s).1.
Proof.
  intros Hwf Hsub Hm. apply needs_fixing_frame; [done| |done].
  intros x nd Hx. by eapply lookup_weaken.
Qed.

End FixerMore.

(** ** More on the proposer cache *)

Section SingleSiteMore.

Context `{Countable RVIdentifier} {SimpleWorld Kwargs : Type}.

Local Abbreviation State := (State RVIdentifier Kwargs).
Local Abbreviation call := (@call RVIdentifier _ _ SimpleWorld Kwargs).
Implicit Types (st : State) (l : list RVIdentifier).
Implicit Types (out proposers : list proposer_ref).

(** The loop from any state whatsoever: it returns, and this is what it has
    done to the dictionary and to the constructed proposers. *)
Lemma for_node_in_run l proposers st :
  ∃ out st' news,
    for_node_in l proposers st = (Ok (proposers ++ out), st')
    ∧ _proposers (self st) ⊆ _proposers (self st')
    ∧ Forall2 (λ rv p, _proposers (self st') !! rv = Some p) l out
    ∧ inference_args (self st') = inference_args (self st)
    ∧ created st' = created st ++ news
    ∧ Forall (λ obj, kwargs obj = inference_args (self st)) news
    ∧ dom (_proposers (self st')) = dom (_proposers (self st)) ∪ list_to_set l
    ∧ length news + size (_proposers (self st)) = size (_proposers (self st')).
Proof.
  revert proposers st.
  induction l as [|rv l IH]; intros proposers st; simpl.
  { exists [], st, []. rewrite !app_nil_r.
    split; [done|]. split; [done|]. split; [constructor|]. split; [done|].
    split; [done|]. split; [constructor|]. split; [set_solver | done]. }
  destruct (_proposers (self st) !! rv) as [p|] eqn:Hrv.
  - rewrite Hrv.
    destruct (IH (proposers ++ [p]) st)
      as (out & st' & news & Hrun & Hsub & Hout & Hargs & Hnew & Hkw & Hdom & Hsize).
    exists (p :: out), st', news. rewrite Hrun, <- app_assoc.
    split; [done|]. split; [done|].
    split; [constructor; [by eapply lookup_weaken | done]|].
    repeat (split; [done|]). split; [|done].
    rewrite Hdom. apply elem_of_dom_2 in Hrv. set_solver.
  - set (obj := {| node := rv; kwargs := inference_args (self st) |}).
    set (st1 := set_proposer rv (length (created st))
                  (proposer_class rv (inference_args (self st)) st).2).
    destruct (IH (proposers ++ [length (created st)]) st1)
      as (out & st' & news & Hrun & Hsub & Hout & Hargs & Hnew & Hkw & Hdom & Hsize).
    exists (length (created st) :: out), st', (obj :: news).
    rewrite <- app_assoc in Hrun.
    split; [simpl; rewrite lookup_insert_eq; exact Hrun|].
    assert (Hsub1 : _proposers (self st) ⊆ _proposers (self st1)).
    { by apply insert_subseteq. }
    split; [by etrans|].
    split.
    { constructor; [|done].
      eapply lookup_weaken; [|exact Hsub]. apply lookup_insert_eq. }
    split; [done|].
    split; [by rewrite Hnew; simpl; rewrite <- app_assoc|].
    split; [by constructor|].
    split.
    + rewrite Hdom. simpl. rewrite dom_insert_L. set_solver.
    + simpl in Hsize. rewrite map_size_insert_None in Hsize by done.
      simpl. lia.
Qed.

(** The loop over variables that all have their proposer already. *)
Lemma for_node_in_cached l proposers st :
  Forall (λ rv, is_Some (_proposers (self st) !! rv)) l →
  ∃ out, for_node_in l proposers st = (Ok (proposers ++ out), st)
         ∧ Forall2 (λ rv p, _proposers (self st) !! rv = Some p) l out.
Proof.
  intros Hl. revert proposers.
  induction Hl as [|rv l [p Hrv] _ IH]; intros proposers; simpl.
  { exists []. by rewrite app_nil_r. }
  rewrite Hrv. rewrite Hrv.
  destruct (IH (proposers ++ [p])) as (out & Hrun & Hout).
  exists (p :: out). rewrite Hrun, <- app_assoc. split; [done|].
  by constructor.
Qed.

Lemma cached_unique l out out' st :
  Forall2 (λ rv p, _proposers (self st) !! rv = Some p) l out →
  Forall2 (λ rv p, _proposers (self st) !! rv = Some p) l out' →
  out = out'.
Proof.
  intros Hout. revert out'.
  induction Hout as [|rv p l out Hp _ IH]; intros out' Hout'.
  - by apply Forall2_nil_inv_l in Hout'.
  - apply Forall2_cons_inv_l in Hout' as (p' & out'' & Hp' & Hout' & ->).
    f_equal; [congruence | by apply IH].
Qed.

Lemma get_proposers_kwargs_inv (kw : Kwargs) st st' :
  call st st' →
  inference_args (self st) = kw ∧ Forall (λ obj, kwargs obj = kw) (created st) →
  inference_args (self st') = kw ∧ Forall (λ obj, kwargs obj = kw) (created st').
Proof.
  intros (world & l & n & out & Hrun) [Hargs Hobjs].
  destruct (for_node_in_run l [] st)
    as (out' & st1 & news & Hrun' & _ & _ & Hargs' & Hnew & Hkw & _).
  unfold get_proposers in Hrun. rewrite Hrun in Hrun'.
  injection Hrun' as _ <-.
  split; [congruence|]. rewrite Hnew. apply Forall_app. split; [done|].
  eapply Forall_impl; [exact Hkw|]. simpl. congruence.
Qed.

Lemma calls_kwargs_inv (kw : Kwargs) st st' :
  rtc call st st' →
  inference_args (self st) = kw ∧ Forall (λ obj, kwargs obj = kw) (created st) →
  inference_args (self st') = kw ∧ Forall (λ obj, kwargs obj = kw) (created st').
Proof.
  induction 1 as [st|st st1 st' Hcall _ IH]; [done|].
  intros Hst. apply IH. by eapply get_proposers_kwargs_inv.
Qed.

(** X8: whatever the state of the inference object, a call of
    [get_proposers] that returns gives a list with one entry per element of
    [target_rvs], each the dictionary's entry for that element after the
    call, and every entry the dictionary had before the call is still
    there, with the same proposer. *)
Theorem get_proposers_keeps_earlier_entries st (world : SimpleWorld) l n
    out st' :
  get_proposers world l n st = (Ok out, st') →
  length out = length l
  ∧ Forall2 (λ rv p, _proposers (self st') !! rv = Some p) l out
  ∧ (∀ rv p, _proposers (self st) !! rv = Some p →
             _proposers (self st') !! rv = Some p).
Proof.
  intros Hrun.
  destruct (for_node_in_run l [] st)
    as (out0 & st0 & news & Hrun' & Hsub & Hout & _).
  unfold get_proposers in Hrun. rewrite Hrun in Hrun'.
  injection Hrun' as <- <-.
  split; [symmetry; eapply Forall2_length, Hout|].
  split; [done|]. intros rv p Hp. by eapply lookup_weaken.
Qed.

(** X9: after a call for [target_rvs], a call for the same variables, or for
    any of them, constructs nothing and leaves the inference object as it
    is; for the same list of variables it returns the same proposers. *)
Theorem get_proposers_again_changes_nothing st (world world' : SimpleWorld)
    l l' n n' out st' :
  get_proposers world l n st = (Ok out, st') →
  l' ⊆ l →
  ∃ out', get_proposers world' l' n' st' = (Ok out', st')
          ∧ (l' = l → out' = out).
Proof.
  intros Hrun Hsub.
  destruct (for_node_in_run l [] st)
    as (out0 & st0 & news & Hrun' & _ & Hout & _).
  unfold get_proposers in Hrun. rewrite Hrun in Hrun'.
  injection Hrun' as <- <-.
  assert (Hknown : Forall (λ rv, is_Some (_proposers (self st') !! rv)) l').
  { apply Forall_forall. intros rv Hrv%Hsub.
    apply list_elem_of_lookup in Hrv as [i Hi].
    destruct (Forall2_lookup_l _ _ _ _ _ Hout Hi) as (p & _ & Hp). eauto. }
  destruct (for_node_in_cached l' [] st' Hknown) as (out' & Hrun2 & Hout').
  exists out'. split; [done|]. intros ->. by eapply cached_unique.
Qed.


(** X11: every proposer constructed by [get_proposers], over any number of
    calls, was given the keyword arguments the inference object was built
    with, and the object still holds them. *)
Theorem proposers_get_the_inference_args (kw : Kwargs) st :
  rtc call (__init__ kw : State) st →
  inference_args (self st) = kw
  ∧ Forall (λ obj, kwargs obj = kw) (created st).
Proof.
  intros Hreach. eapply calls_kwargs_inv; [exact Hreach|].
  split; [done | constructor].
Qed.

(** X12: the order in which the elements of [target_rvs] are visited does
    not change which random variables get an entry in the dictionary, nor
    how many proposers are constructed. *)
Theorem get_proposers_order_does_not_matter st (world : SimpleWorld) l l' n :
  l ≡ₚ l' →
  ∃ out out' st1 st2,
    get_proposers world l n st = (Ok out, st1)
    ∧ get_proposers world l' n st = (Ok out', st2)
    ∧ dom (_proposers (self st1)) = dom (_proposers (self st2))
    ∧ length (created st1) = length (created st2).
Proof.
  intros Hperm.
  destruct (for_node_in_run l [] st)
    as (out & st1 & news & Hrun & _ & _ & _ & Hnew & _ & Hdom & Hsize).
  destruct (for_node_in_run l' [] st)
    as (out' & st2 & news' & Hrun' & _ & _ & _ & Hnew' & _ & Hdom' & Hsize').
  exists out, out', st1, st2. split; [done|]. split; [done|].
  assert (Hset : (list_to_set l : gset RVIdentifier) = list_to_set l').
  { apply set_eq. intros rv. rewrite !elem_of_list_to_set. by rewrite Hperm. }
  assert (Hdoms : dom (_proposers (self st1)) = dom (_proposers (self st2))).
  { by rewrite Hdom, Hdom', Hset. }
  split; [done|].
  rewrite Hnew, Hnew', !length_app.
  rewrite <- !size_dom, Hdoms in *. lia.
Qed.

End SingleSiteMore.

(** ** Joint single-site inference *)

Section JointMore.

Context `{Countable RVIdentifier} {SimpleWorld Kwargs Random : Type}.

Variable shuffle : Random → list proposer_ref → list proposer_ref * Random.

(** What [random.shuffle] is relied on for: the shuffled list holds the very
    elements of the list it was given. *)
Hypothesis shuffle_permutation : ∀ rng l, (shuffle rng l).1 ≡ₚ l.

Local Abbreviation JointState :=
  (JointSingleSiteInference.JointState (RVIdentifier := RVIdentifier)
     (Kwargs := Kwargs) (Random := Random)).
Implicit Types (js : JointState) (l : list RVIdentifier).

(** X13: [JointSingleSiteInference.get_proposers] always returns a list of
    exactly one proposer, a sequential proposer constructed by this call.
    It holds, in some order, what the method of the parent class returns
    for the same arguments, the inference object is left as that method
    leaves it, and the sequential proposers constructed before are
    untouched. *)
Theorem joint_get_proposers_wraps_the_single_site_ones js
    (world : SimpleWorld) l n :
  ∃ sp obj out js',
    JointSingleSiteInference.get_proposers shuffle world l n js = (Ok [sp], js')
    ∧ JointSingleSiteInference.sequential js !! sp = None
    ∧ JointSingleSiteInference.sequential js'
      = JointSingleSiteInference.sequential js ++ [obj]
    ∧ JointSingleSiteInference.sequential js' !! sp = Some obj
    ∧ get_proposers world l n (JointSingleSiteInference.single_site js)
      = (Ok out, JointSingleSiteInference.single_site js')
    ∧ JointSingleSiteInference.proposers obj ≡ₚ out.
Proof.
  destruct (for_node_in_run l [] (JointSingleSiteInference.single_site js))
    as (out & ss & news & Hrun & _).
  simpl in Hrun.
  unfold JointSingleSiteInference.get_proposers, get_proposers. rewrite Hrun.
  pose proof (shuffle_permutation (JointSingleSiteInference.random js) out)
    as Hperm.
  destruct (shuffle (JointSingleSiteInference.random js) out)
    as [shuffled rng].
  eexists _, _, out, _. split; [done|]. simpl.
  split; [by apply lookup_ge_None_2|].
  split; [done|].
  split; [by apply list_lookup_middle|].
  done.
Qed.

(** X14: two calls in a row for the same [target_rvs] return two different
    sequential proposers over the same single-site proposers, in some order
    each; the second call constructs no single-site proposer and leaves the
    dictionary as it is. *)
Theorem joint_calls_share_the_single_site_proposers js
    (world world' : SimpleWorld) l n n' sp1 js1 :
  JointSingleSiteInference.get_proposers shuffle world l n js = (Ok [sp1], js1) →
  ∃ sp2 o1 o2 js2,
    JointSingleSiteInference.get_proposers shuffle world' l n' js1
    = (Ok [sp2], js2)
    ∧ sp1 ≠ sp2
    ∧ JointSingleSiteInference.sequential js2 !! sp1 = Some o1
    ∧ JointSingleSiteInference.sequential js2 !! sp2 = Some o2
    ∧ JointSingleSiteInference.proposers o1
      ≡ₚ JointSingleSiteInference.proposers o2
    ∧ JointSingleSiteInference.single_site js2
      = JointSingleSiteInference.single_site js1.
Proof.
  destruct (for_node_in_run l [] (JointSingleSiteInference.single_site js))
    as (out & ss & news & Hrun & _ & Hout & _).
  simpl in Hrun.
  unfold JointSingleSiteInference.get_proposers at 1. unfold get_proposers.
  rewrite Hrun.
  pose proof (shuffle_permutation (JointSingleSiteInference.random js) out)
    as Hperm1.
  destruct (shuffle (JointSingleSiteInference.random js) out)
    as [shuffled1 rng1].
  intros [= <- <-].
  assert (Hknown : Forall (λ rv, is_Some (_proposers (self ss) !! rv)) l).
  { apply Forall_forall. intros rv Hrv.
    apply list_elem_of_lookup in Hrv as [i Hi].
    destruct (Forall2_lookup_l _ _ _ _ _ Hout Hi) as (p & _ & Hp). eauto. }
  destruct (for_node_in_cached l [] ss Hknown) as (out' & Hrun2 & Hout').
  assert (out' = out) as -> by by eapply cached_unique.
  simpl in Hrun2.
  unfold JointSingleSiteInference.get_proposers, get_proposers. simpl.
  rewrite Hrun2.
  pose proof (shuffle_permutation rng1 out) as Hperm2.
  destruct (shuffle rng1 out) as [shuffled2 rng2].
  eexists _, _, _, _. split; [done|]. simpl.
  split; [rewrite length_app; simpl; lia|].
  split.
  { apply lookup_app_l_Some. by apply list_lookup_middle. }
  split; [by apply list_lookup_middle|].
  split; [|done]. simpl. by rewrite Hperm1, Hperm2.
Qed.

End JointMore.

(** ** The further theorems at work *)

Lemma is_exp_input_iff_all_exp_witness :
  wf_graph mixed_graph ∧ is_Some (mixed_graph !! 3)
  ∧ _is_exp_input 3 (fixer_on mixed_graph) = (Ok false, fixer_on mixed_graph)
  ∧ _is_exp_input 0 (fixer_on mixed_graph) = (Ok true, fixer_on mixed_graph).
Proof.
  assert (Hwf : wf_graph mixed_graph) by by_computation.
  assert (H3 : is_Some (mixed_graph !! 3)) by (vm_compute; eauto).
  assert (H0 : is_Some (mixed_graph !! 0)) by (vm_compute; eauto).
  split; [exact Hwf|]. split; [exact H3|]. split.
  - destruct (is_exp_input_iff_all_exp (fixer_on mixed_graph) 3 Hwf H3)
      as (b & Hrun & _). rewrite Hrun. vm_compute in Hrun.
    by injection Hrun as <-.
  - destruct (is_exp_input_iff_all_exp (fixer_on mixed_graph) 0 Hwf H0)
      as (b & Hrun & _ & Hempty). rewrite Hrun.
    by rewrite Hempty by (vm_compute; reflexivity).
Defined.

Lemma can_be_log_sum_exp_ignores_kind_witness :
  wf_graph wrapped_sum_graph
  ∧ kind_of wrapped_sum_graph 8 = Some bn.ExpNode
  ∧ can_be_log_sum_exp 8 (fixer_on wrapped_sum_graph)
    = (Ok true, fixer_on wrapped_sum_graph)
  ∧ _needs_fixing 8 (fixer_on wrapped_sum_graph)
    = (Ok false, fixer_on wrapped_sum_graph).
Proof.
  assert (Hwf : wf_graph wrapped_sum_graph) by by_computation.
  assert (Hk : kind_of wrapped_sum_graph 8 = Some bn.ExpNode).
  { vm_compute. reflexivity. }
  split; [exact Hwf|]. split; [exact Hk|].
  destruct (can_be_log_sum_exp_ignores_kind (fixer_on wrapped_sum_graph) 8
              bn.ExpNode Hwf Hk eq_refl) as (b & Hrun & _ & Hnf).
  split.
  - rewrite Hrun. vm_compute in Hrun. by injection Hrun as <-.
  - apply Hnf. discriminate.
Defined.

Lemma collect_operands_one_per_input_witness :
  collect_operands [3; 4; 5] [] (fixer_on flat_graph)
  = (Ok [0; 1; 2], fixer_on flat_graph)
  ∧ exp_operands flat_graph [3; 4; 5] [0; 1; 2]
  ∧ length [0; 1; 2] = length (@nil node_ref) + length [3; 4; 5].
Proof.
  assert (Hrun : collect_operands [3; 4; 5] [] (fixer_on flat_graph)
                 = (Ok [0; 1; 2], fixer_on flat_graph)).
  { vm_compute. reflexivity. }
  destruct (collect_operands_one_per_input [3; 4; 5] [] [0; 1; 2]
              (fixer_on flat_graph) (fixer_on flat_graph)) as [Hiff Hlen].
  split; [exact Hrun|]. split; [|exact (Hlen Hrun)].
  destruct (proj1 Hiff Hrun) as (_ & ops & Hops & Hexp).
  simpl in Hops. by subst ops.
Defined.

Lemma get_replacement_returns_only_when_needed_witness :
  ∃ r s', _get_replacement 7 (fixer_on flat_graph) = (Ok (Some r), s')
          ∧ _needs_fixing 7 (fixer_on flat_graph) = (Ok true, fixer_on flat_graph)
          ∧ add_logsumexp [0; 1; 2] (fixer_on flat_graph) = (Ok r, s').
Proof.
  assert (Hrun : ∃ r s', _get_replacement 7 (fixer_on flat_graph)
                         = (Ok (Some r), s')).
  { eexists _, _. vm_compute. reflexivity. }
  destruct Hrun as (r & s' & Hrun). exists r, s'. split; [exact Hrun|].
  destruct (get_replacement_returns_only_when_needed _ _ _ _ Hrun)
    as (Hnf & o & l & acc & r' & Hpat & Hacc & Hadd & Hr).
  split; [exact Hnf|]. injection Hr as ->.
  destruct Hpat as (_ & Hon & Ho & _).
  vm_compute in Hon. injection Hon as <-.
  vm_compute in Ho. injection Ho as <-.
  rewrite <- Hadd. f_equal.
  apply (exp_operands_inj flat_graph [3; 4; 5]); [|exact Hacc].
  repeat constructor.
Defined.

Lemma get_replacement_failure_leaves_fixer_witness :
  wf_graph flat_graph ∧ is_Some (flat_graph !! 6)
  ∧ ∃ e s', _get_replacement 6 (fixer_on flat_graph) = (Raise e, s')
            ∧ s' = fixer_on flat_graph ∧ e = AssertionError
            ∧ _needs_fixing 6 (fixer_on flat_graph)
              = (Ok false, fixer_on flat_graph).
Proof.
  assert (Hwf : wf_graph flat_graph) by by_computation.
  assert (H6 : is_Some (flat_graph !! 6)) by (vm_compute; eauto).
  assert (Hrun : ∃ e s', _get_replacement 6 (fixer_on flat_graph)
                         = (Raise e, s')).
  { eexists _, _. vm_compute. reflexivity. }
  split; [exact Hwf|]. split; [exact H6|].
  destruct Hrun as (e & s' & Hrun). exists e, s'. split; [exact Hrun|].
  destruct (get_replacement_failure_leaves_fixer _ _ _ _ Hrun) as [Hs He].
  split; [exact Hs|]. exact (He Hwf H6).
Defined.

Lemma get_replacement_keeps_graph_well_formed_witness :
  wf_graph flat_graph
  ∧ ∃ r s', _get_replacement 7 (fixer_on flat_graph) = (Ok (Some r), s')
            ∧ wf_graph (nodes (_bmg s')).
Proof.
  assert (Hwf : wf_graph flat_graph) by by_computation.
  assert (Hrun : ∃ r s', _get_replacement 7 (fixer_on flat_graph)
                         = (Ok (Some r), s')).
  { eexists _, _. vm_compute. reflexivity. }
  split; [exact Hwf|].
  destruct Hrun as (r & s' & Hrun). exists r, s'. split; [exact Hrun|].
  exact (get_replacement_keeps_graph_well_formed (fixer_on flat_graph) 7 _ _
           Hwf Hrun).
Defined.

Lemma needs_fixing_unchanged_by_new_nodes_witness :
  wf_graph flat_graph ∧ flat_graph ⊆ shared_graph ∧ is_Some (flat_graph !! 7)
  ∧ (_needs_fixing 7 (fixer_on shared_graph)).1
    = (_needs_fixing 7 (fixer_on flat_graph)).1.
Proof.
  assert (Hwf : wf_graph flat_graph) by by_computation.
  assert (Hsub : flat_graph ⊆ shared_graph).
  { apply insert_subseteq. vm_compute. reflexivity. }
  assert (H7 : is_Some (flat_graph !! 7)) by (vm_compute; eauto).
  split; [exact Hwf|]. split; [exact Hsub|]. split; [exact H7|].
  exact (needs_fixing_unchanged_by_new_nodes
           (fixer_on flat_graph) (fixer_on shared_graph) 7 Hwf Hsub H7).
Defined.

Lemma get_proposers_again_changes_nothing_witness :
  let st0 : State nat unit := __init__ () in
  let st1 := (get_proposers () [1; 2] 0 st0).2 in
  get_proposers () [1; 2] 0 st0 = (Ok [0; 1], st1)
  ∧ [2] ⊆ [1; 2]
  ∧ ∃ out', get_proposers () [2] 5 st1 = (Ok out', st1).
Proof.
  intros st0 st1.
  assert (Hrun : get_proposers () [1; 2] 0 st0 = (Ok [0; 1], st1)).
  { vm_compute. reflexivity. }
  assert (Hsub : [2] ⊆ [1; 2]).
  { intros x Hx. apply list_elem_of_singleton in Hx as ->. by right; left. }
  split; [exact Hrun|]. split; [exact Hsub|].
  destruct (get_proposers_again_changes_nothing st0 () () [1; 2] [2] 0 5
              [0; 1] st1 Hrun Hsub) as (out' & Hrun' & _).
  by exists out'.
Defined.

Lemma proposers_get_the_inference_args_witness :
  let st0 : State nat bool := __init__ true in
  let st1 := (get_proposers () [4; 2] 0 st0).2 in
  rtc (call (SimpleWorld := unit)) st0 st1
  ∧ inference_args (self st1) = true
  ∧ Forall (λ obj, kwargs obj = true) (created st1).
Proof.
  intros st0 st1.
  assert (Hreach : rtc (call (SimpleWorld := unit)) st0 st1).
  { apply rtc_once. exists (), [4; 2], 0%Z, [0; 1]. vm_compute. reflexivity. }
  split; [exact Hreach|].
  exact (proposers_get_the_inference_args true st1 Hreach).
Defined.

Lemma get_proposers_order_does_not_matter_witness :
  [1; 2; 3] ≡ₚ [3; 1; 2]
  ∧ ∃ out out' (st1 st2 : State nat unit),
      get_proposers () [1; 2; 3] 0 (__init__ ()) = (Ok out, st1)
      ∧ get_proposers () [3; 1; 2] 0 (__init__ ()) = (Ok out', st2)
      ∧ dom (_proposers (self st1)) = dom (_proposers (self st2))
      ∧ length (created st1) = length (created st2).
Proof.
  assert (Hperm : [1; 2; 3] ≡ₚ [3; 1; 2]).
  { change ([1; 2] ++ [3] ≡ₚ [3] ++ [1; 2]). apply Permutation_app_comm. }
  split; [exact Hperm|].
  exact (get_proposers_order_does_not_matter
           (__init__ () : State nat unit) () [1; 2; 3] [3; 1; 2] 0 Hperm).
Defined.

Lemma joint_get_proposers_wraps_the_single_site_ones_witness :
  let js : JointSingleSiteInference.JointState (RVIdentifier := nat) :=
    {| JointSingleSiteInference.single_site := __init__ ();
       JointSingleSiteInference.random := ();
       JointSingleSiteInference.sequential := [] |} in
  (∀ rng l, (reversing rng l).1 ≡ₚ l)
  ∧ ∃ js',
      JointSingleSiteInference.get_proposers reversing () [7; 8; 9] 0 js
      = (Ok [0], js')
      ∧ JointSingleSiteInference.sequential js'
        = [{| JointSingleSiteInference.proposers := [2; 1; 0] |}].
Proof.
  intros js.
  assert (Hperm : ∀ rng l, (reversing rng l).1 ≡ₚ l).
  { intros rng l. apply reverse_Permutation. }
  split; [exact Hperm|].
  destruct (joint_get_proposers_wraps_the_single_site_ones reversing Hperm
              js () [7; 8; 9] 0)
    as (sp & obj & out & js' & Hrun & _ & Hseq & _).
  exists js'. vm_compute in Hrun. injection Hrun as <- <-.
  split; reflexivity.
Defined.

Lemma joint_calls_share_the_single_site_proposers_witness :
  let js : JointSingleSiteInference.JointState (RVIdentifier := nat) :=
    {| JointSingleSiteInference.single_site := __init__ ();
       JointSingleSiteInference.random := ();
       JointSingleSiteInference.sequential := [] |} in
  let js1 :=
    (JointSingleSiteInference.get_proposers reversing () [7; 8] 0 js).2 in
  (∀ rng l, (reversing rng l).1 ≡ₚ l)
  ∧ JointSingleSiteInference.get_proposers reversing () [7; 8] 0 js
    = (Ok [0], js1)
  ∧ ∃ sp2 js2,
      JointSingleSiteInference.get_proposers reversing () [7; 8] 3 js1
      = (Ok [sp2], js2)
      ∧ 0 ≠ sp2
      ∧ JointSingleSiteInference.single_site js2
        = JointSingleSiteInference.single_site js1.
Proof.
  intros js js1.
  assert (Hperm : ∀ rng l, (reversing rng l).1 ≡ₚ l).
  { intros rng l. apply reverse_Permutation. }
  assert (Hrun : JointSingleSiteInference.get_proposers reversing () [7; 8] 0 js
                 = (Ok [0], js1)).
  { vm_compute. reflexivity. }
  split; [exact Hperm|]. split; [exact Hrun|].
  destruct (joint_calls_share_the_single_site_proposers reversing Hperm
              js () () [7; 8] 0 3 0 js1 Hrun)
    as (sp2 & o1 & o2 & js2 & Hrun2 & Hne & _ & _ & _ & Hss).
  by exists sp2, js2.
Defined.

Lemma get_proposers_keeps_earlier_entries_witness :
  let st : State nat unit :=
    {| self := {| inference_args := (); _proposers := {[ 5 := 9 ]} |};
       created := [] |} in
  ∃ st', get_proposers () [4; 5] 0 st = (Ok [0; 9], st')
         ∧ _proposers (self st') !! 5 = Some 9
         ∧ _proposers (self st') !! 4 = Some 0.
Proof.
  intros st.
  assert (Hrun : ∃ st', get_proposers () [4; 5] 0 st = (Ok [0; 9], st')).
  { eexists. vm_compute. reflexivity. }
  destruct Hrun as (st' & Hrun). exists st'. split; [exact Hrun|].
  destruct (get_proposers_keeps_earlier_entries st () [4; 5] 0 [0; 9] st' Hrun)
    as (_ & Hout & Hkeep).
  split.
  - apply Hkeep. vm_compute. reflexivity.
  - apply Forall2_cons_1 in Hout as [H4 _]. exact H4.
Defined.
